(** * DeltaTransformer: a shallow embedding of
    [packages/metro-bundler/src/DeltaBundler/DeltaTransformer.js]

    The development has three layers.

    - The _pipeline_ layer embeds the bodies of [_getDelta], [_getPrepend],
      [_getAppend], [_getInverseDependencies], [_transformModules],
      [_transformModule] and [_getMetadata].  Promises are values of a small
      monad [Async] that records at which logical tick a promise settles and
      with which outcome, so that [Promise.all] can reject with the rejection
      that happens first.
    - The _orchestrator_ layer embeds [getDelta] itself: the field
      [_currentBuildPromise], the promises created by [_getDelta()], the
      suspended activations of [getDelta()] and the queue of promise
      reaction jobs.
    - The _notification_ layer embeds [create], the subscription made by the
      constructor, [_onFileChange] and [end()], over the listeners of the
      ['change'] events. *)

From stdpp Require Import base option list gmap strings pretty fin_maps.
From Stdlib Require Import ZArith Lia.

(** ** JavaScript values the file handles *)

(** Thrown values and rejection reasons. *)
Definition Error : Type := string.

(** Modelled from the spec: [RawMapping] is imported from
    [../Bundler/source-map], which is not part of the sources at hand; the
    spec only calls it a "mapping record".  The code never inspects one. *)
Variant RawMapping : Type :=
  | mkRawMapping (positions : list Z) (symbol : option string).

(** The shapes the [map] property of a transform result can have at run
    time: our own array of raw mappings, a standard source map object (what a
    minifier returns), a string-encoded source map, [null] or [undefined]. *)
Variant MapValue : Type :=
  | MapArray (mappings : list RawMapping)
  | MapObject (encoded : string)
  | MapString (text : string)
  | MapNull
  | MapUndefined.

Definition Array_isArray (v : MapValue) : bool :=
  match v with MapArray _ => true | _ => false end.

(** [JSON.stringify] and [String] on a module id.  Ids are integers
    ([number] in the Flow type, "a stable integer" in the spec), on which both
    print the decimal numeral. *)
Definition JSON_stringify (n : Z) : string := pretty n.
Definition String_ (n : Z) : string := pretty n.

(** ** Promises with settlement ticks *)

Definition tick : Type := nat.

(** An asynchronous operation started at tick [t] settles at tick [fst] with
    the outcome [snd]: [inl e] is a rejection with reason [e], [inr a] a
    fulfilment with value [a].  A synchronous [throw] inside an [async]
    function is a rejection at the current tick. *)
Definition Async (A : Type) : Type := tick → tick * (Error + A).

Definition resolve {A} (a : A) : Async A := λ t, (t, inr a).
Definition reject {A} (e : Error) : Async A := λ t, (t, inl e).

(** [await p] followed by the continuation [k]. *)
Definition await {A B} (p : Async A) (k : A → Async B) : Async B :=
  λ t, match p t with
       | (t', inl e) => (t', inl e)
       | (t', inr a) => k a t'
       end.

#[export] Instance Async_ret : MRet Async := @resolve.
#[export] Instance Async_bind : MBind Async := λ A B k p, await p k.

(** A synchronous call that may throw, made inside an [async] function. *)
Definition try_sync {A} (r : Error + A) : Async A := λ t, (t, r).

(** The rejection that happens first among settled promises; of two
    rejections at the same tick the one earlier in the array wins. *)
Fixpoint first_rejection {A} (rs : list (tick * (Error + A)))
  : option (tick * Error) :=
  match rs with
  | [] => None
  | (t, inl e) :: rs' =>
      match first_rejection rs' with
      | Some (t', e') => if decide (t' < t)%nat then Some (t', e') else Some (t, e)
      | None => Some (t, e)
      end
  | (_, inr _) :: rs' => first_rejection rs'
  end.

Definition fulfilled_values {A} (rs : list (tick * (Error + A))) : list A :=
  omap (λ r, match r.2 with inr a => Some a | inl _ => None end) rs.

(** [Promise.all(ps)]: all operations are started at the same tick; the
    result rejects with the first rejection, and otherwise fulfils with the
    array of values once the last operand has fulfilled. *)
Definition Promise_all {A} (ps : list (Async A)) : Async (list A) :=
  λ t, let rs := (λ p : Async A, p t) <$> ps in
       match first_rejection rs with
       | Some (t', e) => (t', inl e)
       | None => (max_list (t :: rs.*1), inr (fulfilled_values rs))
       end.

(** [Promise.all([p, q])] on a two-element array of different types. *)
Definition Promise_all2 {A B} (p : Async A) (q : Async B) : Async (A * B) :=
  λ t, match p t, q t with
       | (tp, inr a), (tq, inr b) => (tp `max` tq, inr (a, b))
       | (tp, inl e), (_, inr _) => (tp, inl e)
       | (_, inr _), (tq, inl e) => (tq, inl e)
       | (tp, inl e), (tq, inl e') =>
           if decide (tq < tp)%nat then (tq, inl e') else (tp, inl e)
       end.

(** ** [Map<number, V>]: a JavaScript [Map] keyed by module id

    A [Map] iterates in insertion order and [set] on a key that is present
    replaces the value where it stands. *)
Module JSMap.
Definition t (V : Type) : Type := list (Z * V).

Definition empty {V} : t V := [].

Fixpoint set {V} (k : Z) (v : V) (m : t V) : t V :=
  match m with
  | [] => [(k, v)]
  | (k', v') :: m' =>
      if decide (k' = k) then (k', v) :: m' else (k', v') :: set k v m'
  end.

Fixpoint get {V} (k : Z) (m : t V) : option V :=
  match m with
  | [] => None
  | (k', v') :: m' => if decide (k' = k) then Some v' else get k m'
  end.

(** [new Map(entries)] *)
Definition fromEntries {V} (entries : list (Z * V)) : t V :=
  foldl (λ m kv, set kv.1 kv.2 m) empty entries.

Definition keys {V} (m : t V) : list Z := m.*1.
End JSMap.

(** [set] for each of [entries] in turn, on the map [m]. *)
Definition set_all {V} (m : JSMap.t V) (entries : list (Z * V)) : JSMap.t V :=
  foldl (λ m kv, JSMap.set kv.1 kv.2 m) m entries.

(** The members of a list of ids in the order in which they first occur. *)
Fixpoint first_occurrences (l : list Z) : list Z :=
  match l with
  | [] => []
  | x :: l' => x :: filter (λ y, y ≠ x) (first_occurrences l')
  end.

(** ** The data of the file *)

Module DeltaEntry.
Record t : Type := mk {
  code : string;
  map : MapValue;
  name : string;
  path : string;
  source : string;
}.
End DeltaEntry.

(** [DeltaEntries = Map<number, ?DeltaEntry>]; [None] is [null]. *)
Abbreviation DeltaEntries := (JSMap.t (option DeltaEntry.t)).

Module DeltaTransformResponse.
Record t : Type := mk {
  pre : DeltaEntries;
  post : DeltaEntries;
  delta : DeltaEntries;
  inverseDependencies : gmap string (list Z);
  reset : bool;
}.
End DeltaTransformResponse.

(** Modelled from the spec: [JSTransformerOptions] is imported from
    [../JSTransformer/worker]; the spec calls it an "options record".  This
    file only hands it on. *)
Variant JSTransformerOptions : Type :=
  | mkJSTransformerOptions (settings : list (string * string)).

(** What [module.read(transformOptions)] and [_getMetadata] fulfil with. *)
Module Metadata.
Record t : Type := mk {
  code : string;
  dependencyOffsets : option (list Z);
  map : MapValue;
  source : string;
}.
End Metadata.

(** The members of [node-haste/Module] this file uses. *)
Module HasteModule.
Record t : Type := mk {
  path : string;
  isAsset : bool;
  getName : Async string;
  read : JSTransformerOptions → Async Metadata.t;
}.
End HasteModule.

Abbreviation DependencyPairs := (gmap string (list (string * HasteModule.t))).

(** The members of [BundleOptions] this file reads. *)
Module BundleOptions.
Record t : Type := mk {
  assetPlugins : list string;
  dev : bool;
  entryFile : string;
  minify : bool;
  platform : option string;
  runBeforeMainModule : list string;
  wrapModules : bool;
}.
End BundleOptions.

Module Options.
Record t : Type := mk {
  getPolyfills : option string → list string;
  polyfillModuleNames : list string;
}.
End Options.

(** The object literal passed to [resolver.wrapModule]. *)
Module WrapModuleArgs.
Record t : Type := mk {
  module : HasteModule.t;
  getModuleId : string → Z;
  dependencyPairs : list (string * HasteModule.t);
  dependencyOffsets : list Z;
  name : string;
  code : string;
  map : MapValue;
  minify : bool;
  dev : bool;
}.
End WrapModuleArgs.

Module Wrapped.
Record t : Type := mk { code : string; map : MapValue }.
End Wrapped.

(** The object literal passed to [createPolyfill]. *)
Module PolyfillArgs.
Record t : Type := mk {
  file : string;
  id : string;
  dependencies : list string;
}.
End PolyfillArgs.

(** [Resolver], with [getDependencyGraph()] flattened into it. *)
Module Resolver.
Record t : Type := mk {
  getModuleSystemDependencies : bool → list HasteModule.t;
  createPolyfill : PolyfillArgs.t → HasteModule.t;
  getAbsolutePath : string → string;
  wrapModule : WrapModuleArgs.t → Async Wrapped.t;
  resolveRequires :
    HasteModule.t → (string → Z) → string →
    list (string * HasteModule.t) → list Z → Error + string;
}.
End Resolver.

(** What [generateAssetObjAndCode] fulfils with: [asset.code] and
    [asset.meta.dependencyOffsets]. *)
Module Asset.
Record t : Type := mk {
  code : string;
  meta_dependencyOffsets : option (list Z);
}.
End Asset.

Module Bundler.
Record t : Type := mk {
  getGetModuleIdFn : string → Z;
  getResolver : Async Resolver.t;
  getModuleForPath : string → Async HasteModule.t;
  generateAssetObjAndCode :
    HasteModule.t → list string → option string → Async Asset.t;
}.
End Bundler.

(** What [DeltaCalculator.getDelta()] fulfils with.  [modified] and
    [deleted] are listed in iteration order. *)
Module DeltaResult.
Record t : Type := mk {
  modified : list HasteModule.t;
  deleted : list string;
  reset : bool;
}.
End DeltaResult.

(** The delta calculator as one delta computation sees it.
    [getInverseDependencies] is a [Map<string, Set<string>>], listed with
    its keys and the elements of each set in iteration order. *)
Module DeltaCalculator.
Record t : Type := mk {
  getDelta : Async DeltaResult.t;
  getTransformerOptions : JSTransformerOptions;
  getDependencyPairs : DependencyPairs;
  getModulesByName : gmap string HasteModule.t;
  getInverseDependencies : list (string * list string);
}.
End DeltaCalculator.

(** The fields of a [DeltaTransformer] instance, [_currentBuildPromise]
    apart (it belongs to the orchestrator layer). *)
Module DeltaTransformer.
Record t : Type := mk {
  _bundler : Bundler.t;
  _getPolyfills : option string → list string;
  _polyfillModuleNames : list string;
  _getModuleId : string → Z;
  _deltaCalculator : DeltaCalculator.t;
  _bundleOptions : BundleOptions.t;
}.
End DeltaTransformer.

(** The constructor. *)
Definition constructor (bundler : Bundler.t) (deltaCalculator : DeltaCalculator.t)
    (options : Options.t) (bundleOptions : BundleOptions.t) : DeltaTransformer.t :=
  {| DeltaTransformer._bundler := bundler;
     DeltaTransformer._deltaCalculator := deltaCalculator;
     DeltaTransformer._getPolyfills := Options.getPolyfills options;
     DeltaTransformer._polyfillModuleNames := Options.polyfillModuleNames options;
     DeltaTransformer._getModuleId := Bundler.getGetModuleIdFn bundler;
     DeltaTransformer._bundleOptions := bundleOptions |}.

(** ** The pipeline: the private methods

    [_getModuleId] has the Flow type [({path: string}) => number]: it reads
    the [path] of its argument and nothing else, so it is embedded as a
    function of the path, applied to [module.path] where the source passes a
    module and to [id] where it passes [{path: id}]. *)
Section Pipeline.
Variable this : DeltaTransformer.t.

Local Abbreviation _bundler := (DeltaTransformer._bundler this).
Local Abbreviation _getModuleId := (DeltaTransformer._getModuleId this).
Local Abbreviation _deltaCalculator := (DeltaTransformer._deltaCalculator this).
Local Abbreviation _bundleOptions := (DeltaTransformer._bundleOptions this).

Definition _getMetadata (module : HasteModule.t)
    (transformOptions : JSTransformerOptions) : Async Metadata.t :=
  if HasteModule.isAsset module then
    asset ← Bundler.generateAssetObjAndCode _bundler module
              (BundleOptions.assetPlugins _bundleOptions)
              (BundleOptions.platform _bundleOptions);
    mret {| Metadata.code := Asset.code asset;
            Metadata.dependencyOffsets := Asset.meta_dependencyOffsets asset;
            Metadata.map := MapUndefined;
            Metadata.source := "" |}
  else HasteModule.read module transformOptions.

Definition _transformModule (module : HasteModule.t) (resolver : Resolver.t)
    (transformOptions : JSTransformerOptions)
    (dependencyPairs : DependencyPairs) : Async (Z * option DeltaEntry.t) :=
  '(name, metadata) ← Promise_all2 (HasteModule.getName module)
                         (_getMetadata module transformOptions);
  let dependencyPairsForModule :=
    default [] (dependencyPairs !! HasteModule.path module) in
  wrapped ←
    (if BundleOptions.wrapModules _bundleOptions then
       Resolver.wrapModule resolver
         {| WrapModuleArgs.module := module;
            WrapModuleArgs.getModuleId := _getModuleId;
            WrapModuleArgs.dependencyPairs := dependencyPairsForModule;
            WrapModuleArgs.dependencyOffsets :=
              default [] (Metadata.dependencyOffsets metadata);
            WrapModuleArgs.name := name;
            WrapModuleArgs.code := Metadata.code metadata;
            WrapModuleArgs.map := Metadata.map metadata;
            WrapModuleArgs.minify := BundleOptions.minify _bundleOptions;
            WrapModuleArgs.dev := BundleOptions.dev _bundleOptions |}
     else
       code ← try_sync (Resolver.resolveRequires resolver module _getModuleId
                          (Metadata.code metadata) dependencyPairsForModule
                          (default [] (Metadata.dependencyOffsets metadata)));
       mret {| Wrapped.code := code; Wrapped.map := Metadata.map metadata |});
  let map :=
    if Array_isArray (Wrapped.map wrapped) then Wrapped.map wrapped
    else MapUndefined in
  mret (_getModuleId (HasteModule.path module),
        Some {| DeltaEntry.code := Wrapped.code wrapped;
                DeltaEntry.map := map;
                DeltaEntry.name := name;
                DeltaEntry.source := Metadata.source metadata;
                DeltaEntry.path := HasteModule.path module |}).

Definition _transformModules (modules : list HasteModule.t)
    (resolver : Resolver.t) (transformOptions : JSTransformerOptions)
    (dependencyPairs : DependencyPairs) : Async DeltaEntries :=
  entries ← Promise_all
    ((λ module, _transformModule module resolver transformOptions
                  dependencyPairs) <$> modules);
  mret (JSMap.fromEntries entries).

Definition _getPrepend (transformOptions : JSTransformerOptions)
    (dependencyPairs : DependencyPairs) : Async DeltaEntries :=
  resolver ← Bundler.getResolver _bundler;
  let polyfillModuleNames :=
    DeltaTransformer._getPolyfills this (BundleOptions.platform _bundleOptions)
    ++ DeltaTransformer._polyfillModuleNames this in
  let moduleSystemDeps :=
    Resolver.getModuleSystemDependencies resolver
      (BundleOptions.dev _bundleOptions) in
  let modules :=
    moduleSystemDeps ++
    ((λ polyfillModuleName,
        Resolver.createPolyfill resolver
          {| PolyfillArgs.file := polyfillModuleName;
             PolyfillArgs.id := polyfillModuleName;
             PolyfillArgs.dependencies := [] |}) <$> polyfillModuleNames) in
  _transformModules modules resolver transformOptions dependencyPairs.

(** [.filter(Boolean)] on an array of modules and [undefined]s. *)
Definition filter_Boolean {A} (xs : list (option A)) : list A := omap id xs.

(** The entry that [_getAppend] builds for one module id. *)
Definition require_entry (moduleId : Z) : Z * option DeltaEntry.t :=
  let code := ";require(" +:+ JSON_stringify moduleId +:+ ");" in
  let name := "require-" +:+ String_ moduleId in
  let path := name +:+ ".js" in
  (moduleId,
   Some {| DeltaEntry.code := code;
           DeltaEntry.map := MapNull;
           DeltaEntry.name := name;
           DeltaEntry.source := code;
           DeltaEntry.path := path |}).

Definition _getAppend (dependencyPairs : DependencyPairs)
    (modulesByName : gmap string HasteModule.t) : Async DeltaEntries :=
  resolver ← Bundler.getResolver _bundler;
  let absPath :=
    Resolver.getAbsolutePath resolver (BundleOptions.entryFile _bundleOptions) in
  entryPointModule ← Bundler.getModuleForPath _bundler absPath;
  mret (JSMap.fromEntries
          (require_entry <$>
             ((λ m, _getModuleId (HasteModule.path m)) <$>
                filter_Boolean
                  (((λ name, modulesByName !! name) <$>
                      BundleOptions.runBeforeMainModule _bundleOptions)
                   ++ [Some entryPointModule])))).

(** [output] is an object without prototype used as a dictionary; the
    property key of [output[n]] is [String(n)]. *)
Definition _getInverseDependencies
    (inverseDependencies : list (string * list string))
    : gmap string (list Z) :=
  foldl (λ output kd,
           <[String_ (_getModuleId kd.1) := _getModuleId <$> kd.2]> output)
        ∅ inverseDependencies.

Definition _getDelta : Async DeltaTransformResponse.t :=
  d ← DeltaCalculator.getDelta _deltaCalculator;
  let transformerOptions :=
    DeltaCalculator.getTransformerOptions _deltaCalculator in
  let dependencyPairs := DeltaCalculator.getDependencyPairs _deltaCalculator in
  resolver ← Bundler.getResolver _bundler;
  modifiedDelta ← _transformModules (DeltaResult.modified d) resolver
                    transformerOptions dependencyPairs;
  let modifiedDelta :=
    foldl (λ m id, JSMap.set (_getModuleId id) None m) modifiedDelta
          (DeltaResult.deleted d) in
  prependSources ←
    (if DeltaResult.reset d
     then _getPrepend transformerOptions dependencyPairs
     else mret JSMap.empty);
  appendSources ←
    (if DeltaResult.reset d
     then _getAppend dependencyPairs
            (DeltaCalculator.getModulesByName _deltaCalculator)
     else mret JSMap.empty);
  let inverseDependencies :=
    _getInverseDependencies
      (DeltaCalculator.getInverseDependencies _deltaCalculator) in
  mret {| DeltaTransformResponse.pre := prependSources;
          DeltaTransformResponse.post := appendSources;
          DeltaTransformResponse.delta := modifiedDelta;
          DeltaTransformResponse.inverseDependencies := inverseDependencies;
          DeltaTransformResponse.reset := DeltaResult.reset d |}.
End Pipeline.

(** A step of the transform of [module], started at tick [t], fails with
    the reason [e]: [module.getName()] is rejected; or the read of the module
    is or, for an asset, [generateAssetObjAndCode]; or, the name and the
    metadata being there, [resolver.wrapModule] is rejected or, when modules
    are not wrapped, [resolver.resolveRequires] throws.  The arguments of the
    last two are those of lines 326 to 344. *)
Definition transform_step_fails (this : DeltaTransformer.t)
    (module : HasteModule.t) (resolver : Resolver.t)
    (transformOptions : JSTransformerOptions)
    (dependencyPairs : DependencyPairs) (t : tick) (e : Error) : Prop :=
  let options := DeltaTransformer._bundleOptions this in
  (∃ tn, HasteModule.getName module t = (tn, inl e))
  ∨ (HasteModule.isAsset module = false
     ∧ ∃ tm, HasteModule.read module transformOptions t = (tm, inl e))
  ∨ (HasteModule.isAsset module = true
     ∧ ∃ tm, Bundler.generateAssetObjAndCode (DeltaTransformer._bundler this)
               module (BundleOptions.assetPlugins options)
               (BundleOptions.platform options) t = (tm, inl e))
  ∨ ∃ tn name tm metadata,
      HasteModule.getName module t = (tn, inr name)
      ∧ _getMetadata this module transformOptions t = (tm, inr metadata)
      ∧ if BundleOptions.wrapModules options then
          ∃ tw,
            Resolver.wrapModule resolver
              {| WrapModuleArgs.module := module;
                 WrapModuleArgs.getModuleId :=
                   DeltaTransformer._getModuleId this;
                 WrapModuleArgs.dependencyPairs :=
                   default [] (dependencyPairs !! HasteModule.path module);
                 WrapModuleArgs.dependencyOffsets :=
                   default [] (Metadata.dependencyOffsets metadata);
                 WrapModuleArgs.name := name;
                 WrapModuleArgs.code := Metadata.code metadata;
                 WrapModuleArgs.map := Metadata.map metadata;
                 WrapModuleArgs.minify := BundleOptions.minify options;
                 WrapModuleArgs.dev := BundleOptions.dev options |}
              (tn `max` tm)
            = (tw, inl e)
        else
          Resolver.resolveRequires resolver module
            (DeltaTransformer._getModuleId this) (Metadata.code metadata)
            (default [] (dependencyPairs !! HasteModule.path module))
            (default [] (Metadata.dependencyOffsets metadata))
          = inl e.

(** The modules of the preamble in the order the specification words it:
    module-system scripts, then the polyfills of the global list
    ([polyfillModuleNames]), then those of the platform-specific list
    ([getPolyfills({platform})]).  Used only to compare with [_getPrepend]. *)
Definition preamble_modules_as_specified (this : DeltaTransformer.t)
    (resolver : Resolver.t) : list HasteModule.t :=
  let polyfill name :=
    Resolver.createPolyfill resolver
      {| PolyfillArgs.file := name; PolyfillArgs.id := name;
         PolyfillArgs.dependencies := [] |} in
  Resolver.getModuleSystemDependencies resolver
    (BundleOptions.dev (DeltaTransformer._bundleOptions this))
  ++ (polyfill <$> DeltaTransformer._polyfillModuleNames this)
  ++ (polyfill <$> DeltaTransformer._getPolyfills this
                     (BundleOptions.platform (DeltaTransformer._bundleOptions this))).

(** The code of a postamble entry as the specification words it. *)
Definition require_code_as_specified (moduleId : Z) : string :=
  "require(" +:+ JSON_stringify moduleId +:+ ");".

(** ** The orchestrator: [getDelta] and [_currentBuildPromise]

    Build promises (the promises [_getDelta()] returns) and activations of
    [getDelta()] are numbered in the order they are created.  *)

Variant outcome : Type :=
  | Fulfilled (result : DeltaTransformResponse.t)
  | Rejected (reason : Error).

Definition outcome_of (r : Error + DeltaTransformResponse.t) : outcome :=
  match r with inl e => Rejected e | inr v => Fulfilled v end.

(** A build promise: pending, with the activations that await it in the order
    they did so, or settled. *)
Variant promise_state : Type :=
  | Pending (reactions : list nat)
  | Settled (o : outcome).

Record build : Type := mkBuild {
  owner : nat;             (* the activation whose line 135 created it *)
  status : promise_state;
}.

(** Where an activation of [getDelta()] stands. *)
Variant activation : Type :=
  | AwaitPrevious (p : nat)   (* suspended at line 132 on build [p] *)
  | AwaitBuild (p : nat)      (* suspended at line 140, inside [try] *)
  | Completed (o : outcome).  (* returned [result], or threw *)

Record state : Type := mkState {
  _currentBuildPromise : option nat;
  builds : list build;
  calls : nat;                       (* activations created so far *)
  activations : gmap nat activation;
  jobs : list (nat * outcome);       (* promise reaction jobs, oldest first *)
}.

Definition initial : state :=
  {| _currentBuildPromise := None; builds := []; calls := 0;
     activations := ∅; jobs := [] |}.

(** [await p] by activation [c], which then stands at [a]: a reaction on a
    pending promise, a job at once on a settled one. *)
Definition await_build (c p : nat) (a : activation) (st : state) : state :=
  match builds st !! p with
  | Some (mkBuild c' (Pending rs)) =>
      {| _currentBuildPromise := _currentBuildPromise st;
         builds := <[p := mkBuild c' (Pending (rs ++ [c]))]> (builds st);
         calls := calls st;
         activations := <[c := a]> (activations st);
         jobs := jobs st |}
  | Some (mkBuild _ (Settled o)) =>
      {| _currentBuildPromise := _currentBuildPromise st;
         builds := builds st;
         calls := calls st;
         activations := <[c := a]> (activations st);
         jobs := jobs st ++ [(c, o)] |}
  | None => st
  end.

(** Lines 135 to 140 by activation [c]: [_getDelta()] is called and its
    promise stored, then awaited.  [_getDelta] is an [async] function that
    begins with an [await], so its promise is pending when [getDelta]
    awaits it. *)
Definition start_build (c : nat) (st : state) : state :=
  let p := length (builds st) in
  await_build c p (AwaitBuild p)
    {| _currentBuildPromise := Some p;
       builds := builds st ++ [mkBuild c (Pending [])];
       calls := calls st;
       activations := activations st;
       jobs := jobs st |}.

(** A call of [getDelta()]: lines 127 to 140, up to the first [await]. *)
Definition call (st : state) : state :=
  let c := calls st in
  let st' :=
    {| _currentBuildPromise := _currentBuildPromise st;
       builds := builds st;
       calls := S c;
       activations := activations st;
       jobs := jobs st |} in
  match _currentBuildPromise st with
  | Some p => await_build c p (AwaitPrevious p) st'
  | None => start_build c st'
  end.

(** The computation behind build promise [p] finishes with [o]: the
    reactions become jobs, in the order they were registered. *)
Definition settle (p : nat) (o : outcome) (st : state) : state :=
  match builds st !! p with
  | Some (mkBuild c (Pending rs)) =>
      {| _currentBuildPromise := _currentBuildPromise st;
         builds := <[p := mkBuild c (Settled o)]> (builds st);
         calls := calls st;
         activations := activations st;
         jobs := jobs st ++ ((λ c', (c', o)) <$> rs) |}
  | _ => st
  end.

(** Activation [c] is resumed with the outcome of the promise it awaited. *)
Definition resume (c : nat) (o : outcome) (st : state) : state :=
  match activations st !! c with
  | Some (AwaitPrevious _) =>
      match o with
      | Fulfilled _ => start_build c st
      | Rejected e =>
          (* the [await] of line 132 throws, outside of the [try] *)
          {| _currentBuildPromise := _currentBuildPromise st;
             builds := builds st;
             calls := calls st;
             activations := <[c := Completed (Rejected e)]> (activations st);
             jobs := jobs st |}
      end
  | Some (AwaitBuild _) =>
      (* lines 140 to 145: [finally] clears the field, then the function
         returns [result] or rethrows *)
      {| _currentBuildPromise := None;
         builds := builds st;
         calls := calls st;
         activations := <[c := Completed o]> (activations st);
         jobs := jobs st |}
  | _ => st
  end.

Definition run_job (st : state) : state :=
  match jobs st with
  | [] => st
  | (c, o) :: q =>
      resume c o
        {| _currentBuildPromise := _currentBuildPromise st;
           builds := builds st;
           calls := calls st;
           activations := activations st;
           jobs := q |}
  end.

(** What can happen to an orchestrator.  Callers and collaborators are free
    to act between any two jobs, which covers every schedule of the event
    loop. *)
Variant event : Type :=
  | Call                             (* somebody calls [getDelta()] *)
  | Settle (p : nat) (o : outcome)   (* the computation of build [p] ends *)
  | RunJob.                          (* the oldest job runs *)

Definition step (st : state) (ev : event) : state :=
  match ev with
  | Call => call st
  | Settle p o => settle p o st
  | RunJob => run_job st
  end.

Definition run (evs : list event) (st : state) : state := foldl step st evs.

(** Builds whose computation is in progress. *)
Definition executing (st : state) : list nat :=
  omap (λ ib : nat * build,
          match status ib.2 with Pending _ => Some ib.1 | Settled _ => None end)
       (imap (λ i b, (i, b)) (builds st)).

(** One [getDelta()] on a fresh orchestrator, the computation being
    [_getDelta] started at tick [t]: what the call returns or throws. *)
Definition getDelta (this : DeltaTransformer.t) (t : tick) : option outcome :=
  let st := run [Call; Settle 0 (outcome_of (_getDelta this t).2); RunJob] initial in
  match activations st !! 0 with
  | Some (Completed o) => Some o
  | _ => None
  end.

(** Activation [c] is suspended on build promise [p]. *)
Definition awaiting (st : state) (c p : nat) : Prop :=
  activations st !! c = Some (AwaitPrevious p)
  ∨ activations st !! c = Some (AwaitBuild p).

(** What holds of every state the orchestrator can be in. *)
Record consistent (st : state) : Prop := mkConsistent {
  activations_bounded :
    ∀ c a, activations st !! c = Some a → c < calls st;
  owners_bounded :
    ∀ p c s, builds st !! p = Some (mkBuild c s) → c < calls st;
  (* the stored promise belongs to an activation that is inside [try] *)
  token_owned :
    ∀ p, _currentBuildPromise st = Some p →
      ∃ c s, builds st !! p = Some (mkBuild c s)
             ∧ activations st !! c = Some (AwaitBuild p);
  (* a suspended activation will be resumed: it has a reaction on the
     promise it awaits, or a job when that promise is settled *)
  suspended_registered :
    ∀ c p, awaiting st c p →
      ∃ c' s, builds st !! p = Some (mkBuild c' s)
              ∧ match s with
                | Pending rs => c ∈ rs
                | Settled o => (c, o) ∈ jobs st
                end;
  (* reactions and jobs belong to the activations that await the promise,
     and a job carries the outcome of that promise *)
  reactions_awaiting :
    ∀ p c' rs c,
      builds st !! p = Some (mkBuild c' (Pending rs)) → c ∈ rs →
      awaiting st c p;
  jobs_awaiting :
    ∀ c o, (c, o) ∈ jobs st →
      ∃ p c', awaiting st c p
              ∧ builds st !! p = Some (mkBuild c' (Settled o));
  (* an activation is resumed once *)
  reactions_NoDup :
    ∀ p c' rs, builds st !! p = Some (mkBuild c' (Pending rs)) → NoDup rs;
  jobs_NoDup : NoDup (jobs st).*1;
}.

(** Every build promise is settled. *)
Definition all_settled (st : state) : Prop :=
  ∀ p c s, builds st !! p = Some (mkBuild c s) → ∃ o, s = Settled o.

(** Build promise [p] is settled with [o]. *)
Definition settled_with (st : state) (p : nat) (o : outcome) : Prop :=
  ∃ c, builds st !! p = Some (mkBuild c (Settled o)).

(** Activation [c] has not called [_getDelta()]: no build promise is its. *)
Definition never_built (st : state) (c : nat) : Prop :=
  ∀ q c' s, builds st !! q = Some (mkBuild c' s) → c' ≠ c.

(** Activation [c], which awaited build promise [p] at line 132, still
    waits, or has thrown the reason [p] was rejected with; in both cases
    without a build promise of its own. *)
Definition waits_or_threw (st : state) (c p : nat) : Prop :=
  never_built st c
  ∧ (activations st !! c = Some (AwaitPrevious p)
     ∨ ∃ e, activations st !! c = Some (Completed (Rejected e))
            ∧ settled_with st p (Rejected e)).

(** ** Construction, change notification and [end()] *)


(** The functions registered as listeners of a ['change'] event: the
    [_onFileChange] of a transformer (a class property holding an arrow
    function, so each instance has a function of its own), or a function of
    somebody else. *)
Variant listener : Type :=
  | OnFileChange (instance : nat)
  | Foreign (f : nat).

#[export] Instance listener_eq_dec : EqDecision listener.
Proof. solve_decision. Defined.

(** [EventEmitter], for one event name: the listeners in the order they were
    added.  [on] adds at the end without looking for duplicates;
    [removeListener] removes one instance of the listener, the one added
    last. *)
Module EventEmitter.
Definition on (l : listener) (ls : list listener) : list listener := ls ++ [l].

Fixpoint removeListener (l : listener) (ls : list listener) : list listener :=
  match ls with
  | [] => []
  | x :: ls' =>
      if decide (l ∈ ls') then x :: removeListener l ls'
      else if decide (x = l) then ls' else x :: ls'
  end.
End EventEmitter.

(** The listeners of ['change'] on the delta calculator and on each
    transformer (its subscribers, by number), and how many times the
    calculator's [end()] was called. *)
Record emitters : Type := mkEmitters {
  calculator_change : list listener;
  transformer_change : nat → list nat;
  calculator_ended : nat;
}.

(** Line 91 of the constructor, for transformer [i]. *)
Definition constructor_subscribes (i : nat) (w : emitters) : emitters :=
  {| calculator_change :=
       EventEmitter.on (OnFileChange i) (calculator_change w);
     transformer_change := transformer_change w;
     calculator_ended := calculator_ended w |}.

(** A listener that was called. *)
Variant notification : Type :=
  | Notified (instance subscriber : nat)   (* a subscriber of a transformer *)
  | ForeignCalled (f : nat).

(** [_onFileChange] of transformer [i]: [this.emit('change')] calls the
    subscribers of the transformer in order. *)
Definition _onFileChange (i : nat) (w : emitters) : list notification :=
  Notified i <$> transformer_change w i.

Definition invoke (w : emitters) (l : listener) : list notification :=
  match l with
  | OnFileChange i => _onFileChange i w
  | Foreign f => [ForeignCalled f]
  end.

(** The delta calculator emits ['change']. *)
Definition calculator_emits_change (w : emitters) : list notification :=
  mjoin (invoke w <$> calculator_change w).

(** [end()] of transformer [i]; the result is the one of the calculator's
    [end()], here [calculator_end]. *)
Definition end_ {R} (calculator_end : R) (i : nat) (w : emitters)
    : emitters * R :=
  ({| calculator_change :=
        EventEmitter.removeListener (OnFileChange i) (calculator_change w);
      transformer_change := transformer_change w;
      calculator_ended := S (calculator_ended w) |},
   calculator_end).

(** The notifications that are not of transformer [i]. *)
Definition is_other (i : nat) (n : notification) : bool :=
  match n with
  | Notified j _ => bool_decide (j ≠ i)
  | ForeignCalled _ => true
  end.

Definition of_others (i : nat) (ns : list notification) : list notification :=
  filter (λ n, is_other i n = true) ns.

(** The activations that await a pending build promise are registered in
    the order of their calls. *)
Definition reactions_in_call_order (st : state) : Prop :=
  ∀ p c rs,
    builds st !! p = Some (mkBuild c (Pending rs)) →
    ∀ i j c1 c2, rs !! i = Some c1 → rs !! j = Some c2 → i < j → c1 < c2.

(** Every call made so far has returned or thrown. *)
Definition all_completed (st : state) : Prop :=
  ∀ c, c < calls st → ∃ o, activations st !! c = Some (Completed o).

(** ** Fixtures: a small bundle used by the examples *)

Definition boom : Error := "SyntaxError".

Definition opts0 : JSTransformerOptions := mkJSTransformerOptions [].

Definition script (path name code : string) (m : MapValue) : HasteModule.t :=
  {| HasteModule.path := path;
     HasteModule.isAsset := false;
     HasteModule.getName := λ t, (S t, inr name);
     HasteModule.read := λ _ t,
       (S (S t),
        inr {| Metadata.code := code; Metadata.dependencyOffsets := None;
               Metadata.map := m; Metadata.source := code |}) |}.

(** A module whose transform fails. *)
Definition broken (path name : string) : HasteModule.t :=
  {| HasteModule.path := path;
     HasteModule.isAsset := false;
     HasteModule.getName := λ t, (S t, inr name);
     HasteModule.read := λ _ t, (S (S t), inl boom) |}.

Definition mod_a : HasteModule.t := script "/a.js" "a" "A()" (MapArray []).
Definition mod_b : HasteModule.t := script "/b.js" "b" "B()" (MapObject "{}").
Definition mod_e : HasteModule.t := script "/e.js" "e" "E()" (MapString "AAAA").
Definition mod_sys : HasteModule.t := script "/require.js" "require" "R()" MapUndefined.
Definition mod_bad : HasteModule.t := broken "/bad.js" "bad".

(** An id allocator: a table for the modules above, and past it the length
    of the path plus one hundred. *)
Definition table_id (path : string) : Z :=
  if decide (path = "/a.js") then 1
  else if decide (path = "/b.js") then 2
  else if decide (path = "/e.js") then 3
  else if decide (path = "/bad.js") then 4
  else 100 + Z.of_nat (String.length path).

Definition resolver0 : Resolver.t :=
  {| Resolver.getModuleSystemDependencies := λ _, [mod_sys];
     Resolver.createPolyfill := λ args,
       script (PolyfillArgs.file args) (PolyfillArgs.id args) "P()" MapUndefined;
     Resolver.getAbsolutePath := λ f, "/" +:+ f;
     Resolver.wrapModule := λ args t,
       (S t, inr {| Wrapped.code := "__d(" +:+ WrapModuleArgs.code args +:+ ")";
                    Wrapped.map := WrapModuleArgs.map args |});
     Resolver.resolveRequires := λ _ _ code _ _, inr code |}.

Definition bundler0 (entry : HasteModule.t) : Bundler.t :=
  {| Bundler.getGetModuleIdFn := table_id;
     Bundler.getResolver := λ t, (t, inr resolver0);
     Bundler.getModuleForPath := λ _ t, (S t, inr entry);
     Bundler.generateAssetObjAndCode := λ _ _ _ t,
       (S t, inr {| Asset.code := "asset"; Asset.meta_dependencyOffsets := None |}) |}.

Definition calculator0 (modified : list HasteModule.t) (deleted : list string)
    (reset : bool) (byName : gmap string HasteModule.t) : DeltaCalculator.t :=
  {| DeltaCalculator.getDelta := λ t,
       (S t, inr {| DeltaResult.modified := modified;
                    DeltaResult.deleted := deleted;
                    DeltaResult.reset := reset |});
     DeltaCalculator.getTransformerOptions := opts0;
     DeltaCalculator.getDependencyPairs := ∅;
     DeltaCalculator.getModulesByName := byName;
     DeltaCalculator.getInverseDependencies := [("/a.js", ["/b.js"])] |}.

Definition bundleOptions0 (before : list string) : BundleOptions.t :=
  {| BundleOptions.assetPlugins := [];
     BundleOptions.dev := true;
     BundleOptions.entryFile := "e.js";
     BundleOptions.minify := false;
     BundleOptions.platform := Some "ios";
     BundleOptions.runBeforeMainModule := before;
     BundleOptions.wrapModules := true |}.

Definition options0 : Options.t :=
  {| Options.getPolyfills := λ platform,
       match platform with Some p => ["/poly." +:+ p +:+ ".js"] | None => [] end;
     Options.polyfillModuleNames := ["/global-poly.js"] |}.

Definition transformer0 (modified : list HasteModule.t) (deleted : list string)
    (reset : bool) (before : list string) (byName : gmap string HasteModule.t)
    (entry : HasteModule.t) : DeltaTransformer.t :=
  constructor (bundler0 entry) (calculator0 modified deleted reset byName)
    options0 (bundleOptions0 before).

(** An image, and a bundler whose asset generator knows it. *)
Definition mod_img : HasteModule.t :=
  {| HasteModule.path := "/img.png";
     HasteModule.isAsset := true;
     HasteModule.getName := λ t, (S t, inr "img");
     HasteModule.read := λ _ t, (t, inl boom) |}.

(** A resolver whose [resolveRequires] rewrites nothing and whose
    [wrapModule] always fails. *)
Definition resolver_unwrapped : Resolver.t :=
  {| Resolver.getModuleSystemDependencies := λ _, [];
     Resolver.createPolyfill := Resolver.createPolyfill resolver0;
     Resolver.getAbsolutePath := Resolver.getAbsolutePath resolver0;
     Resolver.wrapModule := λ _ t, (t, inl boom);
     Resolver.resolveRequires := λ _ _ code _ _, inr ("resolved:" +:+ code) |}.

(** Listeners: transformer 0 with two subscribers, transformer 1 with one,
    and a foreign listener already on the calculator. *)
Definition emitters0 : emitters :=
  {| calculator_change := [Foreign 7];
     transformer_change := λ i, if decide (i = 0) then [10; 11] else [20];
     calculator_ended := 0 |}.

(** A bundler that finds no module for the entry file. *)
Definition bundler_lost : Bundler.t :=
  {| Bundler.getGetModuleIdFn := table_id;
     Bundler.getResolver := λ t, (t, inr resolver0);
     Bundler.getModuleForPath := λ _ t, (S t, inl "NotFound");
     Bundler.generateAssetObjAndCode :=
       Bundler.generateAssetObjAndCode (bundler0 mod_e) |}.

(** A delta calculator that cannot compute the delta. *)
Definition calculator_failing : DeltaCalculator.t :=
  {| DeltaCalculator.getDelta := λ t, (S t, inl "GraphError");
     DeltaCalculator.getTransformerOptions := opts0;
     DeltaCalculator.getDependencyPairs := ∅;
     DeltaCalculator.getModulesByName := ∅;
     DeltaCalculator.getInverseDependencies := [] |}.

(** * Properties *)

(** ** Reasoning about [Async] *)

Lemma mbind_await {A B} (k : A → Async B) (p : Async A) t :
  (p ≫= k) t = await p k t.
Proof. reflexivity. Qed.

Lemma mret_resolve {A} (a : A) t : (mret a : Async A) t = (t, inr a).
Proof. reflexivity. Qed.

Lemma await_inr {A B} (p : Async A) (k : A → Async B) t t' b :
  await p k t = (t', inr b) →
  ∃ t1 a, p t = (t1, inr a) ∧ k a t1 = (t', inr b).
Proof.
  unfold await. destruct (p t) as [t1 [e|a]]; [discriminate|]. eauto.
Qed.

Lemma await_inl {A B} (p : Async A) (k : A → Async B) t t' e :
  await p k t = (t', inl e) →
  p t = (t', inl e) ∨ ∃ t1 a, p t = (t1, inr a) ∧ k a t1 = (t', inl e).
Proof.
  unfold await. destruct (p t) as [t1 [e1|a]]; [left; congruence|]. eauto.
Qed.

Lemma await_step {A B} (p : Async A) (k : A → Async B) t t1 a :
  p t = (t1, inr a) → await p k t = k a t1.
Proof. unfold await. by intros ->. Qed.

Lemma await_reject {A B} (p : Async A) (k : A → Async B) t t1 e :
  p t = (t1, inl e) → await p k t = (t1, inl e).
Proof. unfold await. by intros ->. Qed.

(** Splits a hypothesis on a fulfilled or rejected chain of awaits. *)
Ltac async_inv H :=
  repeat first
    [ rewrite mbind_await in H
    | rewrite mret_resolve in H
    | let t1 := fresh "t" in let a := fresh "a" in
      let H1 := fresh "Hawait" in
      apply await_inr in H as (t1 & a & H1 & H) ].

(** ** [Promise.all] *)

Lemma first_rejection_elem {A} (rs : list (tick * (Error + A))) t e :
  first_rejection rs = Some (t, e) → (t, inl e) ∈ rs.
Proof.
  induction rs as [|[t0 [e0|a0]] rs IH]; simpl; [done| |].
  - destruct (first_rejection rs) as [[t1 e1]|] eqn:Hrs.
    + case_decide; intros [= <- <-]; [right; by apply IH | left].
    + intros [= <- <-]. left.
  - intros H. right. by apply IH.
Qed.

Lemma first_rejection_None {A} (rs : list (tick * (Error + A))) :
  first_rejection rs = None ↔ ∀ t e, (t, inl e) ∉ rs.
Proof.
  induction rs as [|[t0 [e0|a0]] rs IH]; simpl.
  - split; [|done]. intros _ t e H. by apply elem_of_nil in H.
  - split.
    + destruct (first_rejection rs) as [[t1 e1]|]; [case_decide|]; discriminate.
    + intros H. exfalso. apply (H t0 e0). left.
  - rewrite IH. split; intros H t e Hin.
    + apply elem_of_cons in Hin as [[=]|Hin]. by apply (H t e).
    + apply (H t e). by right.
Qed.

Lemma fulfilled_values_all {A} (rs : list (tick * (Error + A))) :
  (∀ t e, (t, inl e) ∉ rs) →
  Forall2 (λ r v, r.2 = inr v) rs (fulfilled_values rs).
Proof.
  induction rs as [|[t0 [e0|a0]] rs IH]; intros H; simpl.
  - constructor.
  - exfalso. apply (H t0 e0). left.
  - constructor; [done|]. apply IH. intros t e Hin. apply (H t e). by right.
Qed.

(** A fulfilled [Promise.all] holds the value of every operand, in order. *)
Lemma Promise_all_inr {A} (ps : list (Async A)) t t' vs :
  Promise_all ps t = (t', inr vs) →
  Forall2 (λ p v, ∃ tp, p t = (tp, inr v)) ps vs.
Proof.
  unfold Promise_all.
  destruct (first_rejection _) as [[t1 e1]|] eqn:Hfirst; [discriminate|].
  intros [= <- <-].
  pose proof (proj1 (first_rejection_None _) Hfirst) as Hnone.
  clear Hfirst. apply fulfilled_values_all in Hnone as Hfirst.
  apply Forall2_fmap_l in Hfirst.
  eapply Forall2_impl; [exact Hfirst|].
  intros p v Hv. simpl in Hv. exists (p t).1.
  destruct (p t) as [tp r]. simpl in *. by subst.
Qed.

(** A rejected [Promise.all] carries the rejection of one of its operands. *)
Lemma Promise_all_inl {A} (ps : list (Async A)) t t' e :
  Promise_all ps t = (t', inl e) → ∃ p, p ∈ ps ∧ p t = (t', inl e).
Proof.
  unfold Promise_all.
  destruct (first_rejection _) as [[t1 e1]|] eqn:Hfirst; [|discriminate].
  intros [= <- <-]. apply first_rejection_elem in Hfirst.
  apply list_elem_of_fmap in Hfirst as (p & Hp & Hin). eauto.
Qed.

(** One rejected operand is enough for [Promise.all] to reject. *)
Lemma Promise_all_rejects {A} (ps : list (Async A)) t p tp e :
  p ∈ ps → p t = (tp, inl e) → ∃ t' e', Promise_all ps t = (t', inl e').
Proof.
  intros Hin Hp. unfold Promise_all.
  destruct (first_rejection _) as [[t1 e1]|] eqn:Hfirst; [eauto|].
  exfalso. rewrite first_rejection_None in Hfirst. apply (Hfirst tp e).
  apply list_elem_of_fmap. exists p. split; [done|done].
Qed.

(** ** [Map]: keys and lookups *)

Section JSMap_facts.
Context {V : Type}.
Implicit Types (m : JSMap.t V) (k : Z) (v : V).

Lemma JSMap_keys_set k v m :
  JSMap.keys (JSMap.set k v m)
  = if decide (k ∈ JSMap.keys m) then JSMap.keys m else JSMap.keys m ++ [k].
Proof.
  unfold JSMap.keys. induction m as [|[k' v'] m IH]; csimpl.
  - done.
  - destruct (decide (k' = k)) as [->|Hne]; csimpl.
    + rewrite decide_True; [done|]. left.
    + rewrite IH. destruct (decide (k ∈ m.*1)) as [Hin|Hnin].
      * rewrite decide_True; [done|]. by right.
      * rewrite decide_False; [done|].
        intros [->|?]%elem_of_cons; done.
Qed.

Lemma JSMap_get_set k k' v m :
  JSMap.get k' (JSMap.set k v m)
  = if decide (k = k') then Some v else JSMap.get k' m.
Proof.
  induction m as [|[k0 v0] m IH]; csimpl.
  - by destruct (decide (k = k')).
  - destruct (decide (k0 = k)) as [->|Hne]; csimpl.
    + by destruct (decide (k = k')).
    + rewrite IH. destruct (decide (k0 = k')) as [->|]; [|done].
      by rewrite decide_False.
Qed.

Lemma JSMap_get_None k m : JSMap.get k m = None ↔ k ∉ JSMap.keys m.
Proof.
  unfold JSMap.keys. induction m as [|[k0 v0] m IH]; csimpl.
  - split; [intros _; apply not_elem_of_nil|done].
  - destruct (decide (k0 = k)) as [->|Hne].
    + split; [done|]. intros H. exfalso. apply H. left.
    + rewrite IH. rewrite not_elem_of_cons. intuition congruence.
Qed.

Lemma JSMap_NoDup_set k v m :
  NoDup (JSMap.keys m) → NoDup (JSMap.keys (JSMap.set k v m)).
Proof.
  intros H. rewrite JSMap_keys_set. case_decide; [done|].
  apply NoDup_app. split_and!; [done| |apply NoDup_singleton].
  intros x Hx ->%list_elem_of_singleton. done.
Qed.

(** With distinct keys, an entry that is in the map is the one [get]
    finds. *)
Lemma JSMap_get_elem k v m :
  NoDup (JSMap.keys m) → (k, v) ∈ m → JSMap.get k m = Some v.
Proof.
  unfold JSMap.keys. induction m as [|[k0 v0] m IH]; csimpl.
  - intros _ H. by apply elem_of_nil in H.
  - intros [Hk0 Hnd]%NoDup_cons [[= <- <-]|Hin]%elem_of_cons.
    + by rewrite decide_True.
    + rewrite decide_False; [by apply IH|].
      intros ->. apply Hk0. apply list_elem_of_fmap. by exists (k, v).
Qed.

Lemma JSMap_fromEntries_set_all entries :
  JSMap.fromEntries entries = set_all (JSMap.empty : JSMap.t V) entries.
Proof. reflexivity. Qed.

Lemma set_all_NoDup m entries :
  NoDup (JSMap.keys m) → NoDup (JSMap.keys (set_all m entries)).
Proof.
  revert m. induction entries as [|[k v] es IH]; intros m H; csimpl; [done|].
  apply IH. by apply JSMap_NoDup_set.
Qed.

Lemma set_all_get m entries k :
  JSMap.get k (set_all m entries)
  = match last (filter (λ kv, kv.1 = k) entries) with
    | Some kv => Some kv.2
    | None => JSMap.get k m
    end.
Proof.
  revert m. induction entries as [|[k0 v0] es IH]; intros m; csimpl; [done|].
  rewrite IH, JSMap_get_set. rewrite filter_cons. csimpl.
  destruct (decide (k0 = k)) as [->|Hne].
  - destruct (filter _ es) as [|kv l] eqn:Hf; [done|].
    rewrite last_cons_cons.
    destruct (last (kv :: l)) eqn:Hlast; [done|].
    by apply last_None in Hlast.
  - done.
Qed.
End JSMap_facts.

Lemma filter_all {A} (P : A → Prop) `{!∀ x, Decision (P x)} (l : list A) :
  (∀ x, x ∈ l → P x) → filter P l = l.
Proof.
  induction l as [|x l IH]; intros Hall; [done|].
  rewrite filter_cons_True by (apply Hall; left).
  f_equal. apply IH. intros y Hy. apply Hall. by right.
Qed.

Lemma filter_none {A} (P : A → Prop) `{!∀ x, Decision (P x)} (l : list A) :
  (∀ x, x ∈ l → ¬ P x) → filter P l = [].
Proof.
  induction l as [|x l IH]; intros Hnone; [done|].
  rewrite filter_cons_False by (apply Hnone; left).
  apply IH. intros y Hy. apply Hnone. by right.
Qed.

Lemma filter_first_occurrences (P : Z → Prop) `{!∀ x, Decision (P x)} l :
  filter P (first_occurrences l) = first_occurrences (filter P l).
Proof.
  induction l as [|x l IH]; csimpl; [done|].
  rewrite !filter_cons. destruct (decide (P x)) as [HP|HP]; csimpl.
  - f_equal. rewrite <- IH. rewrite !list_filter_filter.
    apply list_filter_iff. intros y. tauto.
  - rewrite <- IH. rewrite list_filter_filter.
    apply list_filter_iff. intros y. split; [tauto|].
    intros Hy. split; [done|]. by intros ->.
Qed.

Lemma first_occurrences_NoDup_id l : NoDup l → first_occurrences l = l.
Proof.
  induction l as [|x l IH]; csimpl; [done|].
  intros [Hx Hnd]%NoDup_cons. f_equal. rewrite IH by done.
  apply filter_all. intros y Hy ->. done.
Qed.

Lemma first_occurrences_elem x l : x ∈ first_occurrences l ↔ x ∈ l.
Proof.
  induction l as [|y l IH]; csimpl; [done|].
  rewrite !elem_of_cons, list_elem_of_filter, IH.
  destruct (decide (x = y)); intuition congruence.
Qed.

Lemma set_all_keys {V} (m : JSMap.t V) (entries : list (Z * V)) :
  JSMap.keys (set_all m entries)
  = JSMap.keys m
    ++ first_occurrences (filter (λ k, k ∉ JSMap.keys m) entries.*1).
Proof.
  revert m. induction entries as [|[k v] es IH]; intros m; csimpl.
  - by rewrite app_nil_r.
  - rewrite IH, JSMap_keys_set, filter_cons. csimpl.
    destruct (decide (k ∈ JSMap.keys m)) as [Hin|Hnin].
    + rewrite decide_False by tauto. done.
    + rewrite decide_True by done. csimpl. rewrite <- app_assoc. csimpl.
      do 2 f_equal. rewrite filter_first_occurrences.
      f_equal. rewrite list_filter_filter. apply list_filter_iff.
      intros y. rewrite not_elem_of_app, list_elem_of_singleton. tauto.
Qed.

(** [new Map(entries)] lists the keys of [entries] in the order of their
    first occurrence. *)
Lemma JSMap_fromEntries_keys {V} (entries : list (Z * V)) :
  JSMap.keys (JSMap.fromEntries entries) = first_occurrences entries.*1.
Proof.
  rewrite JSMap_fromEntries_set_all, set_all_keys. csimpl.
  f_equal. apply filter_all. intros x _. apply not_elem_of_nil.
Qed.

Lemma JSMap_fromEntries_NoDup {V} (entries : list (Z * V)) :
  NoDup (JSMap.keys (JSMap.fromEntries entries)).
Proof. apply set_all_NoDup. apply NoDup_nil_2. Qed.

Lemma JSMap_fromEntries_get {V} (entries : list (Z * V)) k :
  JSMap.get k (JSMap.fromEntries entries)
  = (λ kv, kv.2) <$> last (filter (λ kv, kv.1 = k) entries).
Proof.
  rewrite JSMap_fromEntries_set_all, set_all_get.
  by destruct (last _).
Qed.

(** ** The inverse-dependency translation *)

Lemma getInverseDependencies_lookup_from this (output : gmap string (list Z))
    inverseDependencies key :
  foldl (λ output kd,
           <[String_ (DeltaTransformer._getModuleId this kd.1)
               := DeltaTransformer._getModuleId this <$> kd.2]> output)
        output inverseDependencies !! key
  = match last (filter (λ kd, String_ (DeltaTransformer._getModuleId this kd.1) = key)
                       inverseDependencies) with
    | Some kd => Some (DeltaTransformer._getModuleId this <$> kd.2)
    | None => output !! key
    end.
Proof.
  revert output.
  induction inverseDependencies as [|[path deps] rest IH]; intros output; [done|].
  csimpl. rewrite IH, filter_cons. csimpl.
  destruct (decide (String_ (DeltaTransformer._getModuleId this path) = key))
    as [<-|Hne].
  - destruct (filter _ rest) as [|kd l] eqn:Hf; csimpl.
    + by rewrite lookup_insert_eq.
    + destruct (last (kd :: l)) eqn:Hlast; [done|].
      by apply last_None in Hlast.
  - destruct (last _); [done|]. by rewrite lookup_insert_ne.
Qed.

(** C8. The translation of a path-keyed inverse-dependency map holds, under
    the key [String(id(path))], the ids of the dependents of [path] in the
    order in which the set lists them, nothing removed and nothing reordered:
    the entry of a key is the translation of the last pair that yields this
    key, so a pair whose id no later pair shares is translated to exactly its
    own entry; and translating [{"/a.js": {"/b.js"}}] gives exactly
    [{id("/a.js"): [id("/b.js")]}]. *)
Theorem getInverseDependencies_translates (this : DeltaTransformer.t) :
  let id := DeltaTransformer._getModuleId this in
  (∀ inverseDependencies key,
     _getInverseDependencies this inverseDependencies !! key
     = (λ kd : string * list string, id <$> kd.2)
         <$> last (filter (λ kd, String_ (id kd.1) = key) inverseDependencies))
  ∧ (∀ before path dependents after,
       (∀ kd, kd ∈ after → id kd.1 ≠ id path) →
       _getInverseDependencies this (before ++ (path, dependents) :: after)
         !! String_ (id path)
       = Some (id <$> dependents))
  ∧ (∀ path dependents,
       _getInverseDependencies this [(path, dependents)]
       = {[ String_ (id path) := id <$> dependents ]})
  ∧ _getInverseDependencies this [("/a.js", ["/b.js"])]
    = {[ String_ (id "/a.js") := [id "/b.js"] ]}.
Proof.
  intros id.
  assert (∀ inverseDependencies key,
     _getInverseDependencies this inverseDependencies !! key
     = (λ kd : string * list string, id <$> kd.2)
         <$> last (filter (λ kd, String_ (id kd.1) = key) inverseDependencies))
    as Hlookup.
  { intros inv key. unfold _getInverseDependencies.
    rewrite getInverseDependencies_lookup_from.
    destruct (last _); [done|]. by rewrite lookup_empty. }
  split_and!; [done| |done|done].
  intros before path dependents after Hafter.
  rewrite Hlookup, filter_app, filter_cons_True by done.
  rewrite (filter_none _ after).
  - by rewrite last_snoc.
  - intros kd Hkd Heq. apply (Hafter kd Hkd).
    unfold String_ in Heq. by apply (inj pretty) in Heq.
Qed.

(** The entry of [/a.js] in a map of two paths. *)
Lemma getInverseDependencies_translates_witness :
  _getInverseDependencies (transformer0 [] [] false [] ∅ mod_e)
    [("/a.js", ["/b.js"; "/e.js"]); ("/b.js", ["/e.js"])] !! "1"
  = Some [2%Z; 3%Z].
Proof.
  apply (proj1 (proj2 (getInverseDependencies_translates
                         (transformer0 [] [] false [] ∅ mod_e)))
           [] "/a.js" ["/b.js"; "/e.js"] [("/b.js", ["/e.js"])]).
  intros kd [->|Hin]%elem_of_cons; [discriminate|].
  by apply elem_of_nil in Hin.
Defined.

(** ** The module transform pipeline *)

Lemma Promise_all2_inr {A B} (p : Async A) (q : Async B) t t' a b :
  Promise_all2 p q t = (t', inr (a, b)) →
  ∃ tp tq, p t = (tp, inr a) ∧ q t = (tq, inr b) ∧ t' = tp `max` tq.
Proof.
  unfold Promise_all2.
  destruct (p t) as [tp [e|a']], (q t) as [tq [e'|b']];
    try case_decide; try discriminate.
  intros [= <- <- <-]. eauto.
Qed.

(** What [_transformModule] fulfils with: the id of the module's path and an
    entry made of the wrapped code, the filtered map, the module's name and
    path, and the source the transform read. *)
Lemma transformModule_inr this module resolver opts pairs t t' k oe :
  _transformModule this module resolver opts pairs t = (t', inr (k, oe)) →
  ∃ name metadata tn tm wrapped,
    HasteModule.getName module t = (tn, inr name)
    ∧ _getMetadata this module opts t = (tm, inr metadata)
    ∧ (if BundleOptions.wrapModules (DeltaTransformer._bundleOptions this)
       then ∃ args, Resolver.wrapModule resolver args (tn `max` tm)
                    = (t', inr wrapped)
       else Wrapped.map wrapped = Metadata.map metadata)
    ∧ k = DeltaTransformer._getModuleId this (HasteModule.path module)
    ∧ oe = Some {| DeltaEntry.code := Wrapped.code wrapped;
                   DeltaEntry.map :=
                     if Array_isArray (Wrapped.map wrapped)
                     then Wrapped.map wrapped else MapUndefined;
                   DeltaEntry.name := name;
                   DeltaEntry.source := Metadata.source metadata;
                   DeltaEntry.path := HasteModule.path module |}.
Proof.
  unfold _transformModule. intros H.
  rewrite mbind_await in H.
  apply await_inr in H as (t1 & [name metadata] & Hall & H).
  apply Promise_all2_inr in Hall as (tn & tm & Hn & Hm & ->).
  rewrite mbind_await in H.
  apply await_inr in H as (t2 & wrapped & Hw & H).
  rewrite mret_resolve in H. injection H as <- <- <-.
  exists name, metadata, tn, tm, wrapped. split_and!; try done.
  destruct (BundleOptions.wrapModules _).
  - eauto.
  - rewrite mbind_await in Hw.
    apply await_inr in Hw as (t3 & code & _ & Hw).
    rewrite mret_resolve in Hw. by injection Hw as <- <-.
Qed.

(** C4. The [map] of the entry that [_transformModule] builds is the map
    produced by the wrap step when that is an array of raw mappings, and
    [undefined] for every other shape (a source map object, a string, [null],
    [undefined]); so it is always either [undefined] or an array. *)
Theorem transformModule_map_filtered this module resolver opts pairs t t' k oe :
  _transformModule this module resolver opts pairs t = (t', inr (k, oe)) →
  ∃ entry produced,
    oe = Some entry
    ∧ (if BundleOptions.wrapModules (DeltaTransformer._bundleOptions this)
       then ∃ args tw code,
              Resolver.wrapModule resolver args tw
              = (t', inr {| Wrapped.code := code; Wrapped.map := produced |})
       else ∃ metadata tm,
              _getMetadata this module opts t = (tm, inr metadata)
              ∧ Metadata.map metadata = produced)
    ∧ DeltaEntry.map entry
      = match produced with
        | MapArray mappings => MapArray mappings
        | MapObject _ | MapString _ | MapNull | MapUndefined => MapUndefined
        end
    ∧ (DeltaEntry.map entry = MapUndefined
       ∨ ∃ mappings, DeltaEntry.map entry = MapArray mappings).
Proof.
  intros H.
  apply transformModule_inr in H
    as (name & metadata & tn & tm & [code produced] & Hn & Hm & Hw & -> & ->).
  eexists _, produced. split; [reflexivity|]. simpl in *. split_and!.
  - destruct (BundleOptions.wrapModules _).
    + destruct Hw as [args Hw]. eauto.
    + eauto.
  - by destruct produced.
  - destruct produced; eauto.
Qed.

(** A module whose map is a source map object comes out without a map. *)
Lemma transformModule_map_filtered_witness :
  ∃ entry,
    (_transformModule (transformer0 [] [] false [] ∅ mod_e) mod_b resolver0
       opts0 ∅ 0).2 = inr (2%Z, Some entry)
    ∧ DeltaEntry.map entry = MapUndefined.
Proof.
  destruct (transformModule_map_filtered
              (transformer0 [] [] false [] ∅ mod_e) mod_b resolver0 opts0 ∅
              0 3 2%Z
              (Some {| DeltaEntry.code := "__d(B())";
                       DeltaEntry.map := MapUndefined;
                       DeltaEntry.name := "b";
                       DeltaEntry.source := "B()";
                       DeltaEntry.path := "/b.js" |}) eq_refl)
    as (entry & produced & Hentry & _ & _ & _).
  exists entry. split; [|by injection Hentry as <-].
  by rewrite <- Hentry.
Defined.

Lemma transformModules_inr this modules resolver opts pairs t t' entries_map :
  _transformModules this modules resolver opts pairs t = (t', inr entries_map) →
  ∃ entries,
    Forall2 (λ module e,
               ∃ tm, _transformModule this module resolver opts pairs t
                     = (tm, inr e)) modules entries
    ∧ entries_map = JSMap.fromEntries entries.
Proof.
  unfold _transformModules. intros H.
  rewrite mbind_await in H. apply await_inr in H as (t1 & entries & Hall & H).
  rewrite mret_resolve in H. injection H as <- <-.
  exists entries. split; [|done].
  apply Promise_all_inr in Hall. by apply Forall2_fmap_l in Hall.
Qed.

Lemma transformModules_inl this modules resolver opts pairs t t' e :
  _transformModules this modules resolver opts pairs t = (t', inl e) →
  ∃ module, module ∈ modules
    ∧ _transformModule this module resolver opts pairs t = (t', inl e).
Proof.
  unfold _transformModules. intros H.
  rewrite mbind_await in H. apply await_inl in H as [H|(t1 & a & _ & H)].
  - apply Promise_all_inl in H as (p & Hin & Hp).
    apply list_elem_of_fmap in Hin as (module & -> & Hin). eauto.
  - by rewrite mret_resolve in H.
Qed.

(** The join is all or nothing: one module that fails makes
    [_transformModules] reject, with the failure of a module of the batch. *)
Lemma transformModules_rejects this modules resolver opts pairs t module tm e :
  module ∈ modules →
  _transformModule this module resolver opts pairs t = (tm, inl e) →
  ∃ t' e' culprit,
    _transformModules this modules resolver opts pairs t = (t', inl e')
    ∧ culprit ∈ modules
    ∧ _transformModule this culprit resolver opts pairs t = (t', inl e').
Proof.
  intros Hin Hfail.
  destruct (Promise_all_rejects
              ((λ module, _transformModule this module resolver opts pairs)
                 <$> modules) t
              (_transformModule this module resolver opts pairs) tm e)
    as (t' & e' & Hall); [|done|].
  { apply list_elem_of_fmap. by exists module. }
  assert (_transformModules this modules resolver opts pairs t = (t', inl e'))
    as Hms.
  { unfold _transformModules. rewrite mbind_await.
    by apply await_reject. }
  destruct (transformModules_inl _ _ _ _ _ _ _ _ Hms) as (culprit & ? & ?).
  eauto 10.
Qed.

(** A lone [getDelta()] on a fresh orchestrator settles the way its
    computation does. *)
Lemma getDelta_outcome this t :
  getDelta this t = Some (outcome_of (_getDelta this t).2).
Proof. unfold getDelta. by destruct (_getDelta this t) as [t' [e|r]]. Qed.

(** A step that fails makes the transform of the module reject. *)
Lemma transformModule_step_fails this module resolver opts pairs t e :
  transform_step_fails this module resolver opts pairs t e →
  ∃ tm e0, _transformModule this module resolver opts pairs t = (tm, inl e0).
Proof.
  unfold transform_step_fails, _transformModule.
  intros [[tn Hn]|[[Hasset [tm Hm]]|[[Hasset [tm Hm]]|Hwrap]]].
  - rewrite mbind_await. unfold await, Promise_all2. rewrite Hn.
    destruct (_getMetadata this module opts t) as [tm [em|metadata]];
      try case_decide; eauto.
  - assert (_getMetadata this module opts t = (tm, inl e)) as Hmeta.
    { unfold _getMetadata. by rewrite Hasset. }
    rewrite mbind_await. unfold await, Promise_all2. rewrite Hmeta.
    destruct (HasteModule.getName module t) as [tn [en|name]];
      try case_decide; eauto.
  - assert (_getMetadata this module opts t = (tm, inl e)) as Hmeta.
    { unfold _getMetadata. rewrite Hasset, mbind_await.
      by apply await_reject. }
    rewrite mbind_await. unfold await, Promise_all2. rewrite Hmeta.
    destruct (HasteModule.getName module t) as [tn [en|name]];
      try case_decide; eauto.
  - destruct Hwrap as (tn & name & tm & metadata & Hn & Hm & Hwrap).
    rewrite mbind_await. unfold await at 1, Promise_all2. rewrite Hn, Hm.
    destruct (BundleOptions.wrapModules _).
    + destruct Hwrap as [tw Hwrap]. rewrite mbind_await.
      rewrite (await_reject _ _ _ _ _ Hwrap). eauto.
    + rewrite !mbind_await. unfold await, try_sync. rewrite Hwrap. eauto.
Qed.

(** The transform of a module rejects only with the reason of a step that
    failed. *)
Lemma transformModule_inl this module resolver opts pairs t tm e :
  _transformModule this module resolver opts pairs t = (tm, inl e) →
  transform_step_fails this module resolver opts pairs t e.
Proof.
  unfold transform_step_fails, _transformModule. intros H.
  rewrite mbind_await in H. unfold await at 1, Promise_all2 in H.
  destruct (HasteModule.getName module t) as [tn [en|name]] eqn:Hn.
  - destruct (_getMetadata this module opts t) as [tm' [em|metadata]] eqn:Hm.
    + case_decide; injection H as <- <-; [|by eauto].
      right. unfold _getMetadata in Hm.
      destruct (HasteModule.isAsset module); [right|]; left.
      * split; [done|]. rewrite mbind_await in Hm.
        apply await_inl in Hm as [Hm|(? & ? & _ & [=])]. eauto.
      * eauto.
    + injection H as <- <-. eauto.
  - destruct (_getMetadata this module opts t) as [tm' [em|metadata]] eqn:Hm.
    + injection H as <- <-. right. unfold _getMetadata in Hm.
      destruct (HasteModule.isAsset module); [right|]; left.
      * split; [done|]. rewrite mbind_await in Hm.
        apply await_inl in Hm as [Hm|(? & ? & _ & [=])]. eauto.
      * eauto.
    + do 3 right. exists tn, name, tm', metadata. split_and!; [done..|].
      destruct (BundleOptions.wrapModules _).
      * rewrite mbind_await in H.
        apply await_inl in H as [H|(? & ? & _ & [=])]. eauto.
      * rewrite !mbind_await in H. unfold await, try_sync in H.
        destruct (Resolver.resolveRequires _ _ _ _ _ _) as [e0|code];
          [|discriminate].
        by injection H as <- <-.
Qed.

(** C7. Let a step of the transform of a module of the modified set fail:
    its name or its read (for an asset, the generation of its code) is
    rejected, or [wrapModule] is, or [resolveRequires] throws.  Then the
    delta computation rejects, so no response, hence no partial [delta],
    comes out of it, and a [getDelta()] call that runs this computation
    rejects with the same reason.  That reason is the one a step of a module
    of the modified set failed with: the failure is not swallowed, and when
    the steps that fail all have the reason [e], the call rejects with
    [e]. *)
Theorem transform_failure_aborts this t t1 d t2 resolver module e :
  let calculator := DeltaTransformer._deltaCalculator this in
  let opts := DeltaCalculator.getTransformerOptions calculator in
  let pairs := DeltaCalculator.getDependencyPairs calculator in
  DeltaCalculator.getDelta calculator t = (t1, inr d) →
  Bundler.getResolver (DeltaTransformer._bundler this) t1 = (t2, inr resolver) →
  module ∈ DeltaResult.modified d →
  transform_step_fails this module resolver opts pairs t2 e →
  ∃ t' e' culprit,
    _getDelta this t = (t', inl e')
    ∧ (∀ t'' r, _getDelta this t ≠ (t'', inr r))
    ∧ getDelta this t = Some (Rejected e')
    ∧ culprit ∈ DeltaResult.modified d
    ∧ transform_step_fails this culprit resolver opts pairs t2 e'
    ∧ ((∀ other e'',
          other ∈ DeltaResult.modified d →
          transform_step_fails this other resolver opts pairs t2 e'' →
          e'' = e) → e' = e).
Proof.
  intros calculator opts pairs Hd Hr Hin Hstep.
  apply transformModule_step_fails in Hstep as (tm & e0 & Hfail).
  destruct (transformModules_rejects _ _ _ _ _ _ _ _ _ Hin Hfail)
    as (t' & e' & culprit & Hms & Hcin & Hc).
  apply transformModule_inl in Hc.
  assert (_getDelta this t = (t', inl e')) as Hdelta.
  { unfold _getDelta. rewrite mbind_await, (await_step _ _ _ _ _ Hd).
    rewrite mbind_await, (await_step _ _ _ _ _ Hr).
    rewrite mbind_await. by apply await_reject. }
  exists t', e', culprit. split_and!; try done.
  - intros t'' r. rewrite Hdelta. discriminate.
  - by rewrite getDelta_outcome, Hdelta.
  - intros Honly. by apply (Honly culprit e').
Qed.

(** One module of two cannot be read: the call rejects with its error. *)
Lemma transform_failure_aborts_witness :
  getDelta (transformer0 [mod_a; mod_bad] [] false [] ∅ mod_e) 0
  = Some (Rejected boom).
Proof.
  destruct (transform_failure_aborts
              (transformer0 [mod_a; mod_bad] [] false [] ∅ mod_e) 0 1
              {| DeltaResult.modified := [mod_a; mod_bad];
                 DeltaResult.deleted := [];
                 DeltaResult.reset := false |}
              1 resolver0 mod_bad boom eq_refl eq_refl)
    as (t' & e' & culprit & Hdelta & _ & Hcall & _ & _ & _).
  - right. left.
  - right. left. split; [reflexivity|]. by exists 3.
  - rewrite Hcall. by injection Hdelta as <- <-.
Defined.

(** ** The delta computation *)

(** What a fulfilled [_getDelta] went through. *)
Lemma getDelta_inr this t t' r :
  let calculator := DeltaTransformer._deltaCalculator this in
  let opts := DeltaCalculator.getTransformerOptions calculator in
  let pairs := DeltaCalculator.getDependencyPairs calculator in
  _getDelta this t = (t', inr r) →
  ∃ d t1 resolver t2 transformed t3 t4,
    DeltaCalculator.getDelta calculator t = (t1, inr d)
    ∧ Bundler.getResolver (DeltaTransformer._bundler this) t1 = (t2, inr resolver)
    ∧ _transformModules this (DeltaResult.modified d) resolver opts pairs t2
      = (t3, inr transformed)
    ∧ (if DeltaResult.reset d then _getPrepend this opts pairs
       else mret JSMap.empty) t3 = (t4, inr (DeltaTransformResponse.pre r))
    ∧ (if DeltaResult.reset d
       then _getAppend this pairs (DeltaCalculator.getModulesByName calculator)
       else mret JSMap.empty) t4 = (t', inr (DeltaTransformResponse.post r))
    ∧ DeltaTransformResponse.delta r
      = foldl (λ m id, JSMap.set (DeltaTransformer._getModuleId this id) None m)
              transformed (DeltaResult.deleted d)
    ∧ DeltaTransformResponse.inverseDependencies r
      = _getInverseDependencies this
          (DeltaCalculator.getInverseDependencies calculator)
    ∧ DeltaTransformResponse.reset r = DeltaResult.reset d.
Proof.
  intros calculator opts pairs. unfold _getDelta. intros H.
  rewrite mbind_await in H. apply await_inr in H as (t1 & d & Hd & H).
  rewrite mbind_await in H. apply await_inr in H as (t2 & resolver & Hr & H).
  rewrite mbind_await in H. apply await_inr in H as (t3 & transformed & Hms & H).
  rewrite mbind_await in H. apply await_inr in H as (t4 & pre & Hpre & H).
  rewrite mbind_await in H. apply await_inr in H as (t5 & post & Hpost & H).
  rewrite mret_resolve in H. injection H as <- <-.
  exists d, t1, resolver, t2, transformed, t3, t4. by split_and!.
Qed.

Lemma tombstones_NoDup (id : string → Z) (m : DeltaEntries) deleted :
  NoDup (JSMap.keys m) →
  NoDup (JSMap.keys (foldl (λ m p, JSMap.set (id p) None m) m deleted)).
Proof.
  revert m. induction deleted as [|p deleted IH]; intros m H; [done|].
  csimpl. apply IH. by apply JSMap_NoDup_set.
Qed.

Lemma tombstones_stay (id : string → Z) (m : DeltaEntries) deleted k :
  JSMap.get k m = Some None →
  JSMap.get k (foldl (λ m p, JSMap.set (id p) None m) m deleted) = Some None.
Proof.
  revert m. induction deleted as [|p deleted IH]; intros m H; [done|].
  csimpl. apply IH. rewrite JSMap_get_set. by case_decide.
Qed.

Lemma tombstones_get (id : string → Z) (m : DeltaEntries) deleted p :
  p ∈ deleted →
  JSMap.get (id p) (foldl (λ m p, JSMap.set (id p) None m) m deleted)
  = Some None.
Proof.
  revert m. induction deleted as [|q deleted IH]; intros m Hin.
  - by apply elem_of_nil in Hin.
  - csimpl. apply elem_of_cons in Hin as [<-|Hin]; [|by apply IH].
    apply tombstones_stay. rewrite JSMap_get_set. by rewrite decide_True.
Qed.

(** C3. When a module of the modified set has its path in the deleted set
    too, the [delta] of the response holds [null] under the module's id, and
    no entry of [delta] holds transformed code under that id: the tombstones
    are written after the transforms and replace what these produced. *)
Theorem modified_and_deleted_is_tombstone this t t1 t' d r module :
  let id := DeltaTransformer._getModuleId this in
  DeltaCalculator.getDelta (DeltaTransformer._deltaCalculator this) t
  = (t1, inr d) →
  _getDelta this t = (t', inr r) →
  module ∈ DeltaResult.modified d →
  HasteModule.path module ∈ DeltaResult.deleted d →
  JSMap.get (id (HasteModule.path module)) (DeltaTransformResponse.delta r)
  = Some None
  ∧ ∀ entry,
      (id (HasteModule.path module), Some entry)
      ∉ DeltaTransformResponse.delta r.
Proof.
  intros id Hd H Hmod Hdel.
  apply getDelta_inr in H
    as (d' & t1' & resolver & t2 & transformed & t3 & t4
        & Hd' & _ & Hms & _ & _ & Hdelta & _).
  rewrite Hd in Hd'. injection Hd' as <- <-.
  assert (JSMap.get (id (HasteModule.path module))
            (DeltaTransformResponse.delta r) = Some None) as Hget.
  { rewrite Hdelta. by apply tombstones_get. }
  split; [done|]. intros entry Hentry.
  assert (NoDup (JSMap.keys (DeltaTransformResponse.delta r))) as Hnd.
  { rewrite Hdelta. apply tombstones_NoDup.
    apply transformModules_inr in Hms as (entries & _ & ->).
    apply JSMap_fromEntries_NoDup. }
  rewrite (JSMap_get_elem _ _ _ Hnd Hentry) in Hget. discriminate.
Qed.

(** [/a.js] is modified and deleted in the same diff. *)
Lemma modified_and_deleted_is_tombstone_witness :
  ∃ r, (_getDelta (transformer0 [mod_a; mod_b] ["/a.js"] false [] ∅ mod_e) 0).2
       = inr r
    ∧ DeltaTransformResponse.delta r
      = [(1%Z, None);
         (2%Z, Some {| DeltaEntry.code := "__d(B())";
                       DeltaEntry.map := MapUndefined;
                       DeltaEntry.name := "b";
                       DeltaEntry.source := "B()";
                       DeltaEntry.path := "/b.js" |})]
    ∧ JSMap.get 1%Z (DeltaTransformResponse.delta r) = Some None.
Proof.
  eexists. split; [reflexivity|]. split; [reflexivity|].
  refine (proj1 (modified_and_deleted_is_tombstone
            (transformer0 [mod_a; mod_b] ["/a.js"] false [] ∅ mod_e) 0 1 _
            {| DeltaResult.modified := [mod_a; mod_b];
               DeltaResult.deleted := ["/a.js"];
               DeltaResult.reset := false |}
            _ mod_a eq_refl eq_refl _ _)).
  - left.
  - left.
Defined.



(** ** The preamble *)

Lemma transformModules_keys this modules resolver opts pairs t t' entries_map :
  _transformModules this modules resolver opts pairs t = (t', inr entries_map) →
  JSMap.keys entries_map
  = first_occurrences
      ((λ m, DeltaTransformer._getModuleId this (HasteModule.path m))
         <$> modules).
Proof.
  intros H. apply transformModules_inr in H as (entries & Hall & ->).
  rewrite JSMap_fromEntries_keys. f_equal.
  induction Hall as [|m [k oe] ms es (tm & Hm) _ IH]; [done|].
  csimpl. f_equal; [|exact IH].
  by apply transformModule_inr in Hm as (? & ? & ? & ? & ? & _ & _ & _ & -> & _).
Qed.

(** C9, as the code has it. [pre] is the map of the entries that
    [_transformModule], the pipeline of the ordinary modules, produces for:
    the module-system scripts the resolver gives for the [dev] flag, then one
    polyfill module, made by [createPolyfill], per name of
    [getPolyfills({platform})], then one per name of [polyfillModuleNames].
    Its keys are the ids of these modules in that order, an id that comes
    again staying where it first came. *)
Theorem preamble_order this opts pairs t t' pre :
  _getPrepend this opts pairs t = (t', inr pre) →
  ∃ resolver t1 entries,
    let polyfill name :=
      Resolver.createPolyfill resolver
        {| PolyfillArgs.file := name; PolyfillArgs.id := name;
           PolyfillArgs.dependencies := [] |} in
    let options := DeltaTransformer._bundleOptions this in
    let modules :=
      Resolver.getModuleSystemDependencies resolver (BundleOptions.dev options)
      ++ (polyfill <$> DeltaTransformer._getPolyfills this
                         (BundleOptions.platform options))
      ++ (polyfill <$> DeltaTransformer._polyfillModuleNames this) in
    Bundler.getResolver (DeltaTransformer._bundler this) t = (t1, inr resolver)
    ∧ Forall2 (λ module e,
                 ∃ tm, _transformModule this module resolver opts pairs t1
                       = (tm, inr e)) modules entries
    ∧ pre = JSMap.fromEntries entries
    ∧ JSMap.keys pre
      = first_occurrences
          ((λ m, DeltaTransformer._getModuleId this (HasteModule.path m))
             <$> modules).
Proof.
  unfold _getPrepend. intros H.
  rewrite mbind_await in H. apply await_inr in H as (t1 & resolver & Hr & H).
  rewrite fmap_app in H.
  destruct (transformModules_inr _ _ _ _ _ _ _ _ H) as (entries & Hall & ->).
  exists resolver, t1, entries. split_and!; try done.
  by apply transformModules_keys in H.
Qed.

Lemma preamble_order_witness :
  ∃ t' pre,
    _getPrepend (transformer0 [] [] true [] ∅ mod_e) opts0 ∅ 0 = (t', inr pre)
    ∧ JSMap.keys pre = [111%Z; 112%Z; 115%Z].
Proof.
  eexists _, _.
  match goal with
  | |- ?A ∧ _ => assert (H : A); [vm_compute; reflexivity|]
  end.
  split; [exact H|].
  destruct (preamble_order _ _ _ _ _ _ H)
    as (resolver & t1 & entries & Hr & _ & _ & Hkeys).
  vm_compute in Hr. injection Hr as <- <-.
  rewrite Hkeys. vm_compute. reflexivity.
Defined.

(** C9 as worded fails: with the platform list [/poly.ios.js] and the global
    list [/global-poly.js], the platform polyfill (id 112) comes before the
    global one (id 115) in [pre], while the wording puts the global list
    first. *)
Lemma preamble_order_counterexample :
  let this := transformer0 [] [] true [] ∅ mod_e in
  ∃ t' pre,
    _getPrepend this opts0 ∅ 0 = (t', inr pre)
    ∧ JSMap.keys pre = [111%Z; 112%Z; 115%Z]
    ∧ (λ m, DeltaTransformer._getModuleId this (HasteModule.path m))
        <$> preamble_modules_as_specified this resolver0
      = [111%Z; 115%Z; 112%Z]
    ∧ JSMap.keys pre
      ≠ first_occurrences
          ((λ m, DeltaTransformer._getModuleId this (HasteModule.path m))
             <$> preamble_modules_as_specified this resolver0).
Proof.
  intros this. eexists _, _. split; [vm_compute; reflexivity|].
  split; [vm_compute; reflexivity|]. split; [vm_compute; reflexivity|].
  vm_compute. discriminate.
Qed.

(** ** The postamble *)

Lemma set_all_get_fn {V} (g : Z → V) (m : JSMap.t V) ids k :
  JSMap.get k (set_all m ((λ i, (i, g i)) <$> ids))
  = if decide (k ∈ ids) then Some (g k) else JSMap.get k m.
Proof.
  revert m. induction ids as [|i ids IH]; intros m; [done|].
  csimpl. rewrite IH, JSMap_get_set.
  destruct (decide (k ∈ ids)) as [Hin|Hnin].
  - rewrite decide_True; [done|by right].
  - destruct (decide (i = k)) as [->|Hne].
    + rewrite decide_True; [done|left].
    + rewrite decide_False; [done|]. rewrite elem_of_cons. intuition congruence.
Qed.

Lemma getAppend_inr this pairs byName t t' post :
  _getAppend this pairs byName t = (t', inr post) →
  ∃ resolver t1 entryPoint,
    Bundler.getResolver (DeltaTransformer._bundler this) t = (t1, inr resolver)
    ∧ Bundler.getModuleForPath (DeltaTransformer._bundler this)
        (Resolver.getAbsolutePath resolver
           (BundleOptions.entryFile (DeltaTransformer._bundleOptions this))) t1
      = (t', inr entryPoint)
    ∧ post
      = JSMap.fromEntries
          (require_entry <$>
             ((λ m, DeltaTransformer._getModuleId this (HasteModule.path m)) <$>
                (omap (λ name, byName !! name)
                      (BundleOptions.runBeforeMainModule
                         (DeltaTransformer._bundleOptions this))
                 ++ [entryPoint]))).
Proof.
  unfold _getAppend. intros H.
  rewrite mbind_await in H. apply await_inr in H as (t1 & resolver & Hr & H).
  rewrite mbind_await in H. apply await_inr in H as (t2 & entryPoint & He & H).
  rewrite mret_resolve in H. injection H as <- <-.
  exists resolver, t1, entryPoint. split_and!; try done.
  do 3 f_equal. unfold filter_Boolean.
  rewrite omap_app. f_equal.
  induction (BundleOptions.runBeforeMainModule _) as [|name names IH]; [done|].
  csimpl. rewrite IH. by destruct (byName !! name).
Qed.

(** C6, as the code has it by design. The entry that [post] holds for the
    id of each module found for a name of [runBeforeMainModule], and for the
    id of the entry point, has the code [;require(<id>);], with a semicolon
    in front, which is its source too, the name [require-<id>], the path
    [require-<id>.js] and the map [null].  When the ids of these modules are
    pairwise distinct, the keys of [post] are these ids in the order of
    [runBeforeMainModule] (names without a module are skipped), followed by
    the id of the entry point, which is the last key. *)
Theorem postamble_order this pairs byName t t' post :
  _getAppend this pairs byName t = (t', inr post) →
  ∃ resolver t1 entryPoint,
    let options := DeltaTransformer._bundleOptions this in
    let ids :=
      (λ m, DeltaTransformer._getModuleId this (HasteModule.path m))
        <$> (omap (λ name, byName !! name)
                  (BundleOptions.runBeforeMainModule options)
             ++ [entryPoint]) in
    Bundler.getResolver (DeltaTransformer._bundler this) t = (t1, inr resolver)
    ∧ Bundler.getModuleForPath (DeltaTransformer._bundler this)
        (Resolver.getAbsolutePath resolver (BundleOptions.entryFile options)) t1
      = (t', inr entryPoint)
    ∧ (NoDup ids →
       JSMap.keys post = ids
       ∧ last (JSMap.keys post)
         = Some (DeltaTransformer._getModuleId this
                   (HasteModule.path entryPoint)))
    ∧ ∀ k, k ∈ ids →
        JSMap.get k post
        = Some (Some {| DeltaEntry.code := ";require(" +:+ pretty k +:+ ");";
                        DeltaEntry.map := MapNull;
                        DeltaEntry.name := "require-" +:+ pretty k;
                        DeltaEntry.source := ";require(" +:+ pretty k +:+ ");";
                        DeltaEntry.path :=
                          ("require-" +:+ pretty k) +:+ ".js" |}).
Proof.
  intros H. apply getAppend_inr in H as (resolver & t1 & entryPoint & Hr & He & ->).
  exists resolver, t1, entryPoint. cbv zeta.
  set (ids := _ <$> (_ ++ [entryPoint])).
  assert (JSMap.keys (JSMap.fromEntries (require_entry <$> ids))
          = first_occurrences ids) as Hkeys.
  { rewrite JSMap_fromEntries_keys. f_equal.
    rewrite <- list_fmap_compose. by rewrite list_fmap_id. }
  split_and!; try done.
  - intros Hnd. rewrite Hkeys, first_occurrences_NoDup_id by done.
    split; [done|]. unfold ids. rewrite fmap_app. csimpl. by rewrite last_snoc.
  - intros k Hk. rewrite JSMap_fromEntries_set_all.
    unfold require_entry.
    rewrite (set_all_get_fn (λ i, Some _)). by rewrite decide_True.
Qed.

(** [A] and [B] are found, [missing] is not; the entry point is [/e.js]. *)
Lemma postamble_order_witness :
  ∃ t' post,
    _getAppend (transformer0 [] [] true ["A"; "missing"; "B"]
                  {["A" := mod_a; "B" := mod_b]} mod_e) ∅
      {["A" := mod_a; "B" := mod_b]} 0 = (t', inr post)
    ∧ JSMap.keys post = [1%Z; 2%Z; 3%Z]
    ∧ last (JSMap.keys post) = Some 3%Z.
Proof.
  eexists _, _.
  match goal with
  | |- ?A ∧ _ => assert (H : A); [vm_compute; reflexivity|]
  end.
  split; [exact H|].
  destruct (postamble_order _ _ _ _ _ _ H)
    as (resolver & t1 & entryPoint & Hr & He & Hnd & _).
  vm_compute in Hr. injection Hr as <- <-.
  vm_compute in He. injection He as <-.
  apply Hnd. vm_compute. refine (bool_decide_unpack _ _). vm_compute. exact I.
Defined.

(** C6 as worded fails. With [runBeforeMainModule = ["A", "B"]], the name
    [A] resolving to [/a.js] (id 1), [B] to [/b.js] (id 2) and the entry file
    to [/e.js] (id 3), the keys of [post] are 1, 2, 3, and the code of the
    entry of id 1 is [;require(1);], not [require(1);]. *)
Lemma postamble_order_counterexample :
  let byName : gmap string HasteModule.t := {["A" := mod_a; "B" := mod_b]} in
  let this := transformer0 [] [] true ["A"; "B"] byName mod_e in
  ∃ t' post,
    _getAppend this ∅ byName 0 = (t', inr post)
    ∧ JSMap.keys post = [1%Z; 2%Z; 3%Z]
    ∧ (DeltaEntry.code <$> (JSMap.get 1%Z post ≫= id)) = Some ";require(1);"
    ∧ (DeltaEntry.code <$> (JSMap.get 1%Z post ≫= id))
      ≠ Some (require_code_as_specified 1).
Proof.
  intros byName this. eexists _, _. split; [vm_compute; reflexivity|].
  split_and!; try (vm_compute; reflexivity); vm_compute; discriminate.
Qed.
(** ** The orchestrator *)

#[local] Set Warnings "-clear-no-such-hyp".

Lemma start_build_eq c st :
  start_build c st
  = {| _currentBuildPromise := Some (length (builds st));
       builds := builds st ++ [mkBuild c (Pending [c])];
       calls := calls st;
       activations := <[c := AwaitBuild (length (builds st))]> (activations st);
       jobs := jobs st |}.
Proof.
  unfold start_build, await_build. simpl.
  rewrite list_lookup_middle by done. simpl.
  f_equal.
  replace (length (builds st)) with (length (builds st) + 0) at 1 by lia.
  by rewrite insert_app_r.
Qed.

Lemma elem_of_snoc_here {A} (l : list A) x : x ∈ l ++ [x].
Proof. apply elem_of_app. right. left. Qed.

Lemma elem_of_snoc_further {A} (l k : list A) x : x ∈ l → x ∈ l ++ k.
Proof. intros. apply elem_of_app. by left. Qed.

Lemma elem_of_reactions (js : list (nat * outcome)) rs c o :
  c ∈ rs → (c, o) ∈ js ++ ((λ c', (c', o)) <$> rs).
Proof.
  intros. apply elem_of_app. right. by apply (list_elem_of_fmap_2 (λ c', (c', o))).
Qed.

Lemma elem_of_tail {A} (l : list A) x y : x ∈ y :: l → x ≠ y → x ∈ l.
Proof. intros [->|?]%elem_of_cons ?; done. Qed.

Create HintDb orch discriminated.
#[export] Hint Resolve lookup_lt_Some list_elem_of_here elem_of_snoc_here elem_of_snoc_further elem_of_reactions
  Nat.lt_lt_succ_r : orch.

(** Decomposes lookups and memberships in an updated state into facts about
    the state before. *)
Ltac orch_split :=
  repeat first
    [ progress simplify_eq/=
    | match goal with
      | H : _ ∧ _ |- _ => destruct H
      | H : ∃ _, _ |- _ => destruct H
      | H : @lookup _ _ (gmap nat activation) _ _ (<[_:=_]> _) = Some _ |- _ =>
          apply lookup_insert_Some in H as [[? ?]|[? ?]]
      | H : @lookup _ _ (list build) _ _ (<[_:=_]> _) = Some _ |- _ =>
          apply list_lookup_insert_Some in H as [(? & ? & ?)|[? ?]]
      | H : (_ ++ [_]) !! _ = Some _ |- _ =>
          apply lookup_snoc_Some in H as [[? ?]|[? ?]]
      | H : _ ∈ _ ++ _ |- _ => apply elem_of_app in H as [?|?]
      | H : _ ∈ _ :: _ |- _ => apply elem_of_cons in H as [?|?]
      | H : _ ∈ [] |- _ => by apply elem_of_nil in H
      | H : _ ∈ _ <$> _ |- _ => apply list_elem_of_fmap in H as (? & ? & ?)
      | H : _ ∨ _ |- _ => destruct H
      | H : match ?s with Pending _ => _ | Settled _ => _ end |- _ =>
          is_var s; destruct s
      end ].

Lemma consistent_initial : consistent initial.
Proof.
  constructor; unfold awaiting; simpl; intros;
    try match goal with
      | H : _ ∨ _ |- _ => destruct H
      end;
    try match goal with
      | H : _ ∈ [] |- _ => by apply elem_of_nil in H
      | H : ∅ !! _ = Some _ |- _ => by rewrite lookup_empty in H
      | |- NoDup [] => constructor
      end; done.
Qed.

Lemma NoDup_snoc {A} (l : list A) x : NoDup l → x ∉ l → NoDup (l ++ [x]).
Proof.
  intros Hl Hx. apply NoDup_app. split_and!; [done| |apply NoDup_singleton].
  intros y Hy ->%list_elem_of_singleton. done.
Qed.

Lemma jobs_keys_snoc (js : list (nat * outcome)) c o :
  NoDup js.*1 → (∀ o', (c, o') ∉ js) → NoDup (js ++ [(c, o)]).*1.
Proof.
  intros Hjs Hc. rewrite fmap_app. apply NoDup_snoc; [done|]. simpl.
  intros ([c' o'] & Heq & Hin)%list_elem_of_fmap. simpl in Heq. subst c'.
  by apply (Hc o').
Qed.

Lemma reactions_keys (rs : list nat) (o : outcome) :
  ((λ c', (c', o)) <$> rs).*1 = rs.
Proof. induction rs as [|c rs IH]; [done|]. csimpl. by f_equal. Qed.

Lemma jobs_keys_reactions (js : list (nat * outcome)) rs o :
  NoDup js.*1 → NoDup rs → (∀ c o', c ∈ rs → (c, o') ∉ js) →
  NoDup (js ++ ((λ c', (c', o)) <$> rs)).*1.
Proof.
  intros Hjs Hrs Hdisj. rewrite fmap_app.
  rewrite reactions_keys.
  apply NoDup_app. split_and!; [done| |done].
  intros c ([c' o'] & Heq & Hin)%list_elem_of_fmap Hc. simpl in Heq. subst c'.
  by apply (Hdisj c o').
Qed.

(** Facts about the state before that follow from the hypotheses at hand. *)
Ltac orch_lookups F1 F3 S RA JA :=
  repeat match goal with
    | H : _ !! _ = Some (AwaitPrevious _) |- _ =>
        pose proof (S _ _ (or_introl H)); pose proof (F1 _ _ H); revert H
    | H : _ !! _ = Some (AwaitBuild _) |- _ =>
        pose proof (S _ _ (or_intror H)); pose proof (F1 _ _ H); revert H
    | H : @lookup _ _ (gmap nat activation) _ _ _ = Some _ |- _ =>
        pose proof (F1 _ _ H); revert H
    | H : @lookup _ _ (list build) _ _ _ = Some (mkBuild _ (Pending _)) |- _ =>
        pose proof (lookup_lt_Some _ _ _ H); pose proof (F3 _ _ _ H);
        pose proof (λ c, RA _ _ _ c H); revert H
    | H : @lookup _ _ (list build) _ _ _ = Some _ |- _ =>
        pose proof (lookup_lt_Some _ _ _ H); pose proof (F3 _ _ _ H); revert H
    | H : (_, _) ∈ _ |- _ => pose proof (JA _ _ H); revert H
    end; intros.

Ltac orch_members :=
  repeat match goal with
    | H : ?c ∈ ?rs, Hf : ∀ c, c ∈ ?rs → _ |- _ =>
        pose proof (Hf _ H); revert H
    end; intros.

Ltac orch_goal :=
  repeat first
    [ rewrite list_lookup_insert_eq by done
    | match goal with
      | |- context [ @lookup _ _ (list build) _ ?q (<[?p:=_]> _) ] =>
          destruct (decide (q = p)) as [->|?];
          [rewrite list_lookup_insert_eq by done
          |rewrite list_lookup_insert_ne by done]
      end ];
  orch_split;
  repeat setoid_rewrite list_lookup_insert_Some;
  repeat setoid_rewrite lookup_insert_Some;
  repeat setoid_rewrite lookup_snoc_Some.

Ltac orch_case F1 F3 S RA JA :=
  unfold awaiting; simpl; intros; orch_split;
  try (eauto with orch; lia);
  orch_lookups F1 F3 S RA JA; orch_split;
  orch_members; orch_split;
  orch_lookups F1 F3 S RA JA; orch_split;
  try (exfalso; lia); orch_goal;
  naive_solver eauto with lia orch.

Ltac orch_reactions :=
  simpl; intros; orch_split;
  first [ by eauto | apply NoDup_singleton | apply NoDup_snoc; [by eauto|] ].

Section preservation.
Context (tok : option nat) (bs : list build) (n : nat)
        (acts : gmap nat activation) (js : list (nat * outcome)).
Context (Hst : consistent (mkState tok bs n acts js)).

Lemma reactions_bounded p c' rs c :
  bs !! p = Some (mkBuild c' (Pending rs)) → c ∈ rs → c < n.
Proof.
  intros Hp Hc.
  destruct (reactions_awaiting _ Hst _ _ _ _ Hp Hc) as [H|H];
    apply (activations_bounded _ Hst _ _ H).
Qed.

Lemma jobs_bounded c o : (c, o) ∈ js → c < n.
Proof.
  intros Hc.
  destruct (jobs_awaiting _ Hst _ _ Hc) as (p & c' & [H|H] & _);
    apply (activations_bounded _ Hst _ _ H).
Qed.

Lemma jobs_not_reactions p c' rs c o :
  bs !! p = Some (mkBuild c' (Pending rs)) → c ∈ rs → (c, o) ∉ js.
Proof.
  intros Hp Hc Hjob.
  destruct (jobs_awaiting _ Hst _ _ Hjob) as (p' & c'' & Haw' & Hp').
  pose proof (reactions_awaiting _ Hst _ _ _ _ Hp Hc) as Haw.
  unfold awaiting in *. simpl in *.
  assert (p' = p) as -> by (destruct Haw, Haw'; congruence).
  congruence.
Qed.
End preservation.

Lemma consistent_call st : consistent st → consistent (call st).
Proof.
  destruct st as [tok bs n acts js]. intros Hst.
  pose proof (reactions_bounded _ _ _ _ _ Hst) as F4.
  pose proof (jobs_bounded _ _ _ _ _ Hst) as F2.
  destruct Hst as [F1 F3 T S RA JA RN JN]. unfold awaiting in *. simpl in *.
  unfold call. simpl. destruct tok as [p|].
  - destruct (T p eq_refl) as (c0 & s & Hb & Ha).
    unfold await_build. simpl. rewrite Hb. destruct s as [rs|o].
    + constructor; [orch_case F1 F3 S RA JA..|orch_reactions|done].
      intros Hin. apply (F4 _ _ _ _ Hb) in Hin. lia.
    + constructor; [orch_case F1 F3 S RA JA..|orch_reactions|].
      apply jobs_keys_snoc; [done|]. intros o' Hin. apply F2 in Hin. lia.
  - rewrite start_build_eq. simpl.
    constructor; [orch_case F1 F3 S RA JA..|orch_reactions|done].
Qed.

Lemma consistent_settle p o st : consistent st → consistent (settle p o st).
Proof.
  destruct st as [tok bs n acts js]. intros Hst.
  pose proof (jobs_not_reactions _ _ _ _ _ Hst) as JR.
  destruct Hst as [F1 F3 T S RA JA RN JN]. unfold awaiting in *. simpl in *.
  unfold settle. simpl.
  destruct (bs !! p) as [[c [rs|o']]|] eqn:Hb; [|by constructor..].
  constructor; [orch_case F1 F3 S RA JA..|orch_reactions|].
  apply jobs_keys_reactions; eauto.
Qed.

Lemma consistent_run_job st : consistent st → consistent (run_job st).
Proof.
  destruct st as [tok bs n acts js]. intros Hst.
  pose proof (jobs_not_reactions _ _ _ _ _ Hst) as JR.
  destruct Hst as [F1 F3 T S RA JA RN JN]. unfold awaiting in *. simpl in *.
  unfold run_job. simpl. destruct js as [|[c o] q]; [by constructor|].
  assert (∀ c0 o',
            (c0, o') ∈ q →
            ∃ p c', (acts !! c0 = Some (AwaitPrevious p)
                     ∨ acts !! c0 = Some (AwaitBuild p))
                    ∧ bs !! p = Some (mkBuild c' (Settled o'))) as JA'.
  { intros. eapply JA. by right. }
  assert (∀ o', (c, o') ∉ q) as Hfresh.
  { intros o' Hin. apply NoDup_cons_1_1 in JN. apply JN.
    by apply (list_elem_of_fmap_2 fst) in Hin. }
  apply NoDup_cons_1_2 in JN.
  destruct (JA c o (list_elem_of_here _ _)) as (p0 & c0 & Haw & Hp0).
  pose proof (λ p c' rs H, JR p c' rs c o H) as Hnot.
  unfold resume. simpl.
  destruct (acts !! c) as [[p|p|o']|] eqn:Hact; [destruct o as [r|e]|..].
  - rewrite start_build_eq. simpl.
    constructor; [orch_case F1 F3 S RA JA'..|orch_reactions|done].
  - constructor; [orch_case F1 F3 S RA JA'..|orch_reactions|done].
  - constructor; [orch_case F1 F3 S RA JA'..|orch_reactions|done].
  - constructor; [orch_case F1 F3 S RA JA'..|orch_reactions|done].
  - constructor; [orch_case F1 F3 S RA JA'..|orch_reactions|done].
Qed.

Lemma consistent_step st ev : consistent st → consistent (step st ev).
Proof.
  destruct ev; simpl;
    auto using consistent_call, consistent_settle, consistent_run_job.
Qed.

Lemma consistent_run evs st : consistent st → consistent (run evs st).
Proof.
  revert st. induction evs as [|ev evs IH]; intros st Hst; [done|].
  apply IH. by apply consistent_step.
Qed.

Lemma consistent_reachable evs : consistent (run evs initial).
Proof. apply consistent_run, consistent_initial. Qed.
Ltac orch_light :=
  simpl; intros; orch_split;
  try (eauto with orch; lia);
  try (exfalso; lia); orch_goal;
  naive_solver eauto with lia orch.

(** *** What each operation does to the build promises and the activations *)

Lemma builds_await_build c p a st q c' s :
  builds (await_build c p a st) !! q = Some (mkBuild c' s) →
  ∃ s0, builds st !! q = Some (mkBuild c' s0).
Proof.
  unfold await_build.
  destruct (builds st !! p) as [[c0 [rs|o0]]|] eqn:Hb; orch_light.
Qed.

Lemma builds_start_build c st q c' s :
  builds (start_build c st) !! q = Some (mkBuild c' s) →
  c' = c ∨ builds st !! q = Some (mkBuild c' s).
Proof. rewrite start_build_eq. orch_light. Qed.

Lemma builds_call st q c' s :
  builds (call st) !! q = Some (mkBuild c' s) →
  c' = calls st ∨ ∃ s0, builds st !! q = Some (mkBuild c' s0).
Proof.
  unfold call. destruct (_currentBuildPromise st).
  - intros H. apply builds_await_build in H. by right.
  - intros [->|H]%builds_start_build; eauto.
Qed.

Lemma builds_settle p o st q c' s :
  builds (settle p o st) !! q = Some (mkBuild c' s) →
  ∃ s0, builds st !! q = Some (mkBuild c' s0).
Proof.
  unfold settle.
  destruct (builds st !! p) as [[c0 [rs|o0]]|] eqn:Hb; orch_light.
Qed.

Lemma builds_resume c o st q c' s :
  builds (resume c o st) !! q = Some (mkBuild c' s) →
  (c' = c ∧ ∃ p r, activations st !! c = Some (AwaitPrevious p)
                   ∧ o = Fulfilled r)
  ∨ builds st !! q = Some (mkBuild c' s).
Proof.
  unfold resume.
  destruct (activations st !! c) as [[p|p|o']|]; [destruct o as [r|e]|..];
    simpl; eauto.
  intros [->|H]%builds_start_build; [left|by right].
  split; [done|]. by exists p, r.
Qed.

Lemma activations_await_build c p a st c0 :
  c0 ≠ c →
  activations (await_build c p a st) !! c0 = activations st !! c0.
Proof.
  intros Hne. unfold await_build.
  destruct (builds st !! p) as [[c1 [rs|o0]]|]; simpl;
    by rewrite ?lookup_insert_ne.
Qed.

Lemma activations_start_build c st c0 :
  c0 ≠ c →
  activations (start_build c st) !! c0 = activations st !! c0.
Proof. intros Hne. rewrite start_build_eq. simpl. by rewrite lookup_insert_ne. Qed.

Lemma activations_call st c0 :
  c0 ≠ calls st → activations (call st) !! c0 = activations st !! c0.
Proof.
  intros Hne. unfold call. destruct (_currentBuildPromise st).
  - by rewrite activations_await_build.
  - by rewrite activations_start_build.
Qed.

Lemma activations_settle p o st : activations (settle p o st) = activations st.
Proof.
  unfold settle. by destruct (builds st !! p) as [[c1 [rs|o0]]|].
Qed.

Lemma activations_resume c o st c0 :
  c0 ≠ c → activations (resume c o st) !! c0 = activations st !! c0.
Proof.
  intros Hne. unfold resume.
  destruct (activations st !! c) as [[p|p|o']|]; [destruct o as [r|e]|..];
    simpl; rewrite ?activations_start_build, ?lookup_insert_ne; done.
Qed.

Lemma settled_step st ev p o :
  settled_with st p o → settled_with (step st ev) p o.
Proof.
  destruct st as [tok bs n acts js].
  unfold settled_with. simpl. intros [c Hp].
  destruct ev as [|q o'|]; simpl.
  - unfold call. simpl. destruct tok as [p0|].
    + unfold await_build. simpl.
      destruct (bs !! p0) as [[c0 [rs|o0]]|] eqn:Hb; orch_light.
    + rewrite start_build_eq. orch_light.
  - unfold settle. simpl.
    destruct (bs !! q) as [[c0 [rs|o0]]|] eqn:Hb; orch_light.
  - unfold run_job. simpl. destruct js as [|[c1 o1] js]; [by eauto|].
    unfold resume. simpl.
    destruct (acts !! c1) as [[p1|p1|o2]|] eqn:Hact; [destruct o1 as [r|e]|..];
      rewrite ?start_build_eq; orch_light.
Qed.

Lemma settled_run st evs p o :
  settled_with st p o → settled_with (run evs st) p o.
Proof.
  revert st. induction evs as [|ev evs IH]; intros st Hp; [done|].
  apply IH. by apply settled_step.
Qed.

Lemma waits_or_threw_step c p st ev :
  consistent st →
  waits_or_threw st c p →
  (∃ r, settled_with (step st ev) p (Fulfilled r))
  ∨ waits_or_threw (step st ev) c p.
Proof.
  intros Hst [NB Hc].
  assert (c < calls st) as Hcn.
  { destruct Hc as [Hc|(e & Hc & _)]; eapply activations_bounded; eauto. }
  assert (∀ st', (∀ q c' s, builds st' !! q = Some (mkBuild c' s) →
                            ∃ s0, builds st !! q = Some (mkBuild c' s0)) →
                 never_built st' c) as Hsame.
  { intros st' Hst' q c' s [s0 H0]%Hst'. by eapply NB. }
  assert (∀ st', activations st' !! c = activations st !! c →
                 (∀ o, settled_with st p o → settled_with st' p o) →
                 activations st' !! c = Some (AwaitPrevious p)
                 ∨ ∃ e, activations st' !! c = Some (Completed (Rejected e))
                        ∧ settled_with st' p (Rejected e)) as Hkeep.
  { intros st' -> Hp. destruct Hc as [Hc|(e & Hc & He)]; eauto. }
  pose proof (λ o, settled_step st ev p o) as Hsettled.
  destruct ev as [|q o|]; simpl in *.
  - right. split.
    + intros q c' s [->|[s0 H0]]%builds_call; [lia|by eapply NB].
    + apply Hkeep; [|done]. apply activations_call. lia.
  - right. split.
    + apply Hsame. intros q' c' s. apply builds_settle.
    + apply Hkeep; [|done]. by rewrite activations_settle.
  - unfold run_job in *. destruct (jobs st) as [|[c1 o] js] eqn:Hjobs.
    { right. split; [done|]. by apply Hkeep. }
    set (st1 := {| _currentBuildPromise := _currentBuildPromise st;
                   builds := builds st; calls := calls st;
                   activations := activations st; jobs := js |}) in *.
    destruct (decide (c1 = c)) as [->|Hne].
    + destruct (jobs_awaiting _ Hst c o) as (p0 & c0 & Haw & Hp0).
      { rewrite Hjobs. left. }
      destruct Hc as [Hc|(e & Hc & He)].
      * assert (p0 = p) as ->.
        { destruct Haw as [Haw|Haw]; rewrite Hc in Haw; congruence. }
        destruct o as [r|e].
        -- left. exists r. apply Hsettled. by exists c0.
        -- right. unfold resume. simpl. rewrite Hc. split.
           ++ exact NB.
           ++ right. exists e. simpl. rewrite lookup_insert_eq. split; [done|].
              by exists c0.
      * destruct Haw as [Haw|Haw]; rewrite Hc in Haw; discriminate.
    + right. split.
      * intros q c' s [[-> _]|H0]%builds_resume; [done|by eapply NB].
      * apply Hkeep; [|done]. by rewrite activations_resume.
Qed.

(** ** Serialization of [getDelta()] calls *)

Lemma waits_or_threw_run c p st evs :
  consistent st →
  waits_or_threw st c p →
  (∃ r, settled_with (run evs st) p (Fulfilled r))
  ∨ waits_or_threw (run evs st) c p.
Proof.
  revert st. induction evs as [|ev evs IH]; intros st Hst Hc; [by right|].
  destruct (waits_or_threw_step c p st ev Hst Hc) as [[r Hr]|Hc'].
  - left. exists r. by apply (settled_run _ evs) in Hr.
  - apply IH; [by apply consistent_step|done].
Qed.

Lemma call_waits st p :
  consistent st →
  _currentBuildPromise st = Some p →
  waits_or_threw (call st) (calls st) p.
Proof.
  intros Hst Htok.
  destruct (token_owned _ Hst p Htok) as (c0 & s & Hb & Ha).
  unfold call. rewrite Htok. split.
  - intros q c' s' [s0 H0]%builds_await_build. simpl in H0.
    apply (owners_bounded _ Hst) in H0. lia.
  - left. unfold await_build. simpl. rewrite Hb.
    destruct s; simpl; by rewrite lookup_insert_eq.
Qed.

Lemma call_starts_build st :
  _currentBuildPromise st = None →
  activations (call st) !! calls st = Some (AwaitBuild (length (builds st)))
  ∧ _currentBuildPromise (call st) = Some (length (builds st))
  ∧ builds (call st)
    = builds st ++ [mkBuild (calls st) (Pending [calls st])].
Proof.
  intros Htok. unfold call. rewrite Htok, start_build_eq. simpl.
  by rewrite lookup_insert_eq.
Qed.

(** C2. Take any state the orchestrator can reach in which the oldest job
    resumes an activation [c] that awaits, inside [try], the promise [p] of
    its own computation.  The job carries the outcome [o] of [p], fulfilled
    or rejected; running it leaves [_currentBuildPromise] empty and
    completes [c] with [o]; and a call of [getDelta()] made right after
    starts its own computation at once.  Moreover, when no job is left and
    every build promise is settled, [_currentBuildPromise] is empty. *)
Theorem token_cleared_before_completion evs :
  let st := run evs initial in
  (∀ c p o q,
     jobs st = (c, o) :: q →
     activations st !! c = Some (AwaitBuild p) →
     settled_with st p o
     ∧ _currentBuildPromise (run_job st) = None
     ∧ activations (run_job st) !! c = Some (Completed o)
     ∧ activations (call (run_job st)) !! calls st
       = Some (AwaitBuild (length (builds st))))
  ∧ (jobs st = [] → all_settled st → _currentBuildPromise st = None).
Proof.
  intros st.
  pose proof (consistent_reachable evs) as Hst. fold st in Hst.
  split.
  - intros c p o q Hjobs Hact.
    assert (run_job st
            = {| _currentBuildPromise := None; builds := builds st;
                 calls := calls st;
                 activations := <[c := Completed o]> (activations st);
                 jobs := q |}) as Hrun.
    { unfold run_job. rewrite Hjobs. unfold resume. simpl. by rewrite Hact. }
    rewrite Hrun. simpl. split_and!; [|done|by rewrite lookup_insert_eq|].
    + destruct (jobs_awaiting _ Hst c o) as (p' & c' & Haw & Hp').
      { rewrite Hjobs. left. }
      assert (p' = p) as ->.
      { destruct Haw as [Haw|Haw]; rewrite Hact in Haw; congruence. }
      by exists c'.
    + match goal with
      | |- activations (call ?s) !! _ = _ =>
          by destruct (call_starts_build s eq_refl) as (Hnext & _)
      end.
  - intros Hjobs Hall.
    destruct (_currentBuildPromise st) as [p|] eqn:Htok; [|done].
    destruct (token_owned _ Hst p Htok) as (c & s & Hb & Ha).
    destruct (suspended_registered _ Hst c p) as (c' & s' & Hb' & Hreg).
    { by right. }
    destruct (Hall _ _ _ Hb') as [o ->]. rewrite Hjobs in Hreg.
    by apply elem_of_nil in Hreg.
Qed.

(** A build that fails: the job of its call clears the field. *)
Lemma token_cleared_before_completion_witness :
  let st := run [Call; Settle 0 (Rejected boom)] initial in
  _currentBuildPromise st = Some 0
  ∧ _currentBuildPromise (run_job st) = None
  ∧ activations (run_job st) !! 0 = Some (Completed (Rejected boom))
  ∧ activations (call (run_job st)) !! 1 = Some (AwaitBuild 1).
Proof.
  intros st. split; [reflexivity|].
  destruct (proj1 (token_cleared_before_completion
                     [Call; Settle 0 (Rejected boom)])
              0 0 (Rejected boom) [] eq_refl eq_refl)
    as (_ & Htok & Hact & Hnext).
  split; [exact Htok|]. split; [exact Hact|exact Hnext].
Defined.

(** A call of [getDelta()] made while [_currentBuildPromise] holds the
    promise [p] of a previous call's computation is activation
    [c = calls st].  Whatever happens afterwards, once [p] is rejected with
    [e]: no build promise is ever created by [c], that is, [c] never calls
    [_getDelta()]; [c] is either still suspended on [p] or has thrown [e];
    and when no job is left, [c] has thrown [e]. *)
Theorem waiter_rejects_without_building evs evs' p e :
  let st := run evs initial in
  let c := calls st in
  let st' := run evs' (call st) in
  _currentBuildPromise st = Some p →
  settled_with st' p (Rejected e) →
  never_built st' c
  ∧ (activations st' !! c = Some (AwaitPrevious p)
     ∨ activations st' !! c = Some (Completed (Rejected e)))
  ∧ (jobs st' = [] → activations st' !! c = Some (Completed (Rejected e))).
Proof.
  intros st c st' Htok [c0 Hp].
  pose proof (consistent_reachable evs) as Hst. fold st in Hst.
  assert (consistent st') as Hst'.
  { by apply consistent_run, consistent_call. }
  destruct (waits_or_threw_run c p (call st) evs') as [[r [c1 Hr]]|[NB Hc]].
  { by apply consistent_call. }
  { by apply call_waits. }
  { fold st' in Hr. congruence. }
  fold st' in NB, Hc. split; [done|].
  assert (activations st' !! c = Some (Completed (Rejected e)) ∨
          activations st' !! c = Some (AwaitPrevious p)) as [Hdone|Hwait].
  { destruct Hc as [Hc|(e' & Hc & [c1 He'])]; [by right|left].
    rewrite Hc. congruence. }
  - split; [by right|done].
  - split; [by left|]. intros Hjobs.
    destruct (suspended_registered _ Hst' c p) as (c' & s' & Hb' & Hreg).
    { by left. }
    rewrite Hp in Hb'. injection Hb' as <- <-. rewrite Hjobs in Hreg.
    by apply elem_of_nil in Hreg.
Qed.

(** The second call waits for the first one, whose build is rejected. *)
Lemma waiter_rejects_without_building_witness :
  let st' := run [Call; Call; Settle 0 (Rejected boom); RunJob; RunJob]
                 initial in
  never_built st' 1
  ∧ activations st' !! 1 = Some (Completed (Rejected boom))
  ∧ builds st' = [mkBuild 0 (Settled (Rejected boom))].
Proof.
  intros st'.
  destruct (waiter_rejects_without_building
              [Call] [Settle 0 (Rejected boom); RunJob; RunJob] 0 boom
              eq_refl (ex_intro _ 0 eq_refl))
    as (Hnever & _ & Hthrew).
  split; [exact Hnever|]. split; [exact (Hthrew eq_refl)|reflexivity].
Defined.

(** C1, at three calls. The second and the third call of [getDelta()] arrive
    while the computation of the first is pending, and both await its
    promise.  Once that promise is fulfilled each of them is resumed past the
    check of line 131 and calls [_getDelta()]: the computations 1 and 2 are
    in progress together, and the field holds only the promise of the
    last. *)
Theorem third_call_builds_concurrently (r : DeltaTransformResponse.t) :
  let st :=
    run [Call; Call; Call; Settle 0 (Fulfilled r); RunJob; RunJob; RunJob]
        initial in
  executing st = [1; 2]
  ∧ _currentBuildPromise st = Some 2
  ∧ activations st !! 0 = Some (Completed (Fulfilled r))
  ∧ activations st !! 1 = Some (AwaitBuild 1)
  ∧ activations st !! 2 = Some (AwaitBuild 2)
  ∧ jobs st = [].
Proof. vm_compute. done. Qed.

(** C10, at a fourth call. After the three calls of the theorem above, let
    the computation 2 settle and its call complete: the [finally] of that
    call empties [_currentBuildPromise] while the computation 1 is still in
    progress.  A call of [getDelta()] that arrives now finds the field
    empty, does not wait and starts the computation 3 at once, next to the
    computation 1; when the computation 1 is then rejected with [e], this
    call does not throw [e]: it returns the result of its own
    computation. *)
Theorem arriving_call_does_not_wait (r r' : DeltaTransformResponse.t)
    (o : outcome) (e : Error) :
  let st :=
    run [Call; Call; Call; Settle 0 (Fulfilled r); RunJob; RunJob; RunJob;
         Settle 2 o; RunJob] initial in
  let st' :=
    run [Settle 1 (Rejected e); RunJob; Settle 3 (Fulfilled r'); RunJob]
        (call st) in
  executing st = [1]
  ∧ _currentBuildPromise st = None
  ∧ calls st = 3
  ∧ executing (call st) = [1; 3]
  ∧ activations (call st) !! 3 = Some (AwaitBuild 3)
  ∧ builds st' !! 1 = Some (mkBuild 1 (Settled (Rejected e)))
  ∧ builds st' !! 3 = Some (mkBuild 3 (Settled (Fulfilled r')))
  ∧ activations st' !! 3 = Some (Completed (Fulfilled r')).
Proof. vm_compute. done. Qed.
(** * Further properties of the pipeline *)

(** ** [_getMetadata] and [_transformModule] *)



(** The entry of an asset has the empty source; when modules are not
    wrapped it has no map either. *)
Theorem asset_entry_has_no_source this module resolver opts pairs t t' k entry :
  HasteModule.isAsset module = true →
  _transformModule this module resolver opts pairs t
  = (t', inr (k, Some entry)) →
  DeltaEntry.source entry = ""
  ∧ (BundleOptions.wrapModules (DeltaTransformer._bundleOptions this) = false →
     DeltaEntry.map entry = MapUndefined).
Proof.
  intros Hasset H.
  apply transformModule_inr in H
    as (name & metadata & tn & tm & wrapped & _ & Hm & Hw & _ & [= ->]).
  unfold _getMetadata in Hm. rewrite Hasset, mbind_await in Hm.
  apply await_inr in Hm as (t1 & asset & _ & Hm).
  rewrite mret_resolve in Hm. injection Hm as _ <-. simpl.
  split; [done|]. intros Hwrap. rewrite Hwrap in Hw. simpl in Hw.
  by rewrite Hw.
Qed.

Lemma asset_entry_has_no_source_witness :
  ∃ entry,
    _transformModule (transformer0 [] [] false [] ∅ mod_e) mod_img resolver0
      opts0 ∅ 0
    = (2, inr (108%Z, Some entry))
    ∧ DeltaEntry.source entry = "".
Proof.
  eexists.
  match goal with
  | |- ?A ∧ _ => assert (H : A); [vm_compute; reflexivity|]
  end.
  split; [exact H|].
  exact (proj1 (asset_entry_has_no_source
                  (transformer0 [] [] false [] ∅ mod_e) mod_img resolver0
                  opts0 ∅ 0 _ _ _ eq_refl H)).
Defined.

(** A module is transformed with the dependency pairs of its own path, and
    with none when its path has no pairs: the pairs of other paths do not
    matter. *)
Theorem transformModule_own_pairs this module resolver opts
    (pairs pairs' : DependencyPairs) t :
  default [] (pairs !! HasteModule.path module)
  = default [] (pairs' !! HasteModule.path module) →
  _transformModule this module resolver opts pairs t
  = _transformModule this module resolver opts pairs' t.
Proof. intros H. unfold _transformModule. by rewrite H. Qed.

Lemma transformModule_own_pairs_witness :
  _transformModule (transformer0 [] [] false [] ∅ mod_e) mod_a resolver0 opts0
    ∅ 0
  = _transformModule (transformer0 [] [] false [] ∅ mod_e) mod_a resolver0 opts0
      {["/a.js" := []; "/b.js" := [("./a", mod_a)]]} 0.
Proof.
  apply (transformModule_own_pairs (transformer0 [] [] false [] ∅ mod_e)
           mod_a resolver0 opts0 ∅
           {["/a.js" := []; "/b.js" := [("./a", mod_a)]]} 0).
  vm_compute. reflexivity.
Defined.


(** When [getName()] or the metadata of a module is rejected, so is the
    transform of the module, with one of these reasons, and the resolver is
    not used: the outcome is the same for every resolver and all dependency
    pairs. *)
Theorem transformModule_fails_before_wrapping this module opts t :
  (∃ tn e, HasteModule.getName module t = (tn, inl e))
  ∨ (∃ tm e, _getMetadata this module opts t = (tm, inl e)) →
  ∃ t' e',
    (HasteModule.getName module t = (t', inl e')
     ∨ _getMetadata this module opts t = (t', inl e'))
    ∧ ∀ resolver pairs,
        _transformModule this module resolver opts pairs t = (t', inl e').
Proof.
  intros Hfail.
  assert (∃ t' e', (HasteModule.getName module t = (t', inl e')
                    ∨ _getMetadata this module opts t = (t', inl e'))
                   ∧ Promise_all2 (HasteModule.getName module)
                       (_getMetadata this module opts) t = (t', inl e'))
    as (t' & e' & Hwho & Hall).
  { unfold Promise_all2.
    destruct (HasteModule.getName module t) as [tn [en|name]],
             (_getMetadata this module opts t) as [tm [em|metadata]];
      try case_decide; eauto 10.
    destruct Hfail as [(? & ? & [=])|(? & ? & [=])]. }
  exists t', e'. split; [done|]. intros resolver pairs.
  unfold _transformModule. rewrite mbind_await.
  by rewrite (await_reject _ _ _ _ _ Hall).
Qed.

Lemma transformModule_fails_before_wrapping_witness :
  _transformModule (transformer0 [] [] false [] ∅ mod_e) mod_bad
    resolver_unwrapped opts0 ∅ 0 = (2, inl boom).
Proof.
  destruct (transformModule_fails_before_wrapping
              (transformer0 [] [] false [] ∅ mod_e) mod_bad opts0 0)
    as (t' & e' & [Hwho|Hwho] & Hall).
  - right. by exists 2, boom.
  - discriminate.
  - injection Hwho as <- <-. apply Hall.
Defined.

(** ** [_transformModules] *)

(** The map that [_transformModules] fulfils with has no key twice; its
    keys are the ids of the modules of the batch; and under the id of each
    module of the batch it holds an entry that the transform of a module of
    the batch with this id fulfilled with. *)
Theorem transformModules_entries this modules resolver opts pairs t t' m :
  let id module := DeltaTransformer._getModuleId this (HasteModule.path module) in
  _transformModules this modules resolver opts pairs t = (t', inr m) →
  NoDup (JSMap.keys m)
  ∧ (∀ k, k ∈ JSMap.keys m ↔ ∃ module, module ∈ modules ∧ k = id module)
  ∧ (∀ module, module ∈ modules →
       ∃ source e tm,
         source ∈ modules
         ∧ _transformModule this source resolver opts pairs t
           = (tm, inr (id module, e))
         ∧ JSMap.get (id module) m = Some e).
Proof.
  intros id H. apply transformModules_inr in H as (entries & Hall & ->).
  assert (entries.*1 = id <$> modules) as Hkeys.
  { induction Hall as [|module [k oe] ms es (tm & Hm) _ IH]; [done|].
    csimpl. f_equal; [|exact IH].
    by apply transformModule_inr in Hm
      as (? & ? & ? & ? & ? & _ & _ & _ & -> & _). }
  split_and!.
  - apply JSMap_fromEntries_NoDup.
  - intros k. rewrite JSMap_fromEntries_keys, first_occurrences_elem, Hkeys.
    rewrite list_elem_of_fmap. naive_solver.
  - intros module Hin. rewrite JSMap_fromEntries_get.
    assert (id module ∈ entries.*1) as Hk.
    { rewrite Hkeys. by apply list_elem_of_fmap_2. }
    apply list_elem_of_fmap in Hk as ([k0 e0] & Hk0 & Hin0). simpl in Hk0.
    destruct (last (filter (λ kv, kv.1 = id module) entries))
      as [[k e]|] eqn:Hlast; last first.
    { apply last_None in Hlast.
      assert ((k0, e0) ∈ filter (λ kv, kv.1 = id module) entries) as Hf.
      { apply list_elem_of_filter. by split. }
      rewrite Hlast in Hf. by apply elem_of_nil in Hf. }
    apply last_Some_elem_of, list_elem_of_filter in Hlast as [Hk Hin1].
    simpl in Hk. subst k.
    apply list_elem_of_lookup in Hin1 as [i Hi].
    destruct (Forall2_lookup_r _ _ _ _ _ Hall Hi) as (source & Hs & tm & Htm).
    exists source, e, tm. split_and!; [|done..].
    by eapply list_elem_of_lookup_2.
Qed.

Lemma transformModules_entries_witness :
  ∃ m,
    _transformModules (transformer0 [] [] false [] ∅ mod_e) [mod_a; mod_b]
      resolver0 opts0 ∅ 0 = (3, inr m)
    ∧ NoDup (JSMap.keys m)
    ∧ (2%Z ∈ JSMap.keys m).
Proof.
  eexists.
  match goal with
  | |- ?A ∧ _ => assert (H : A); [vm_compute; reflexivity|]
  end.
  split; [exact H|].
  destruct (transformModules_entries _ _ _ _ _ _ _ _ H) as (Hnd & Hkeys & _).
  split; [exact Hnd|]. apply Hkeys. exists mod_b. split; [|reflexivity].
  right. left.
Defined.

(** ** [_getDelta] *)

Lemma tombstones_set_all (id : string → Z) (m : DeltaEntries) deleted :
  foldl (λ m p, JSMap.set (id p) None m) m deleted
  = set_all m ((λ p, (id p, None)) <$> deleted).
Proof.
  revert m. induction deleted as [|p deleted IH]; intros m; [done|].
  csimpl. by rewrite IH.
Qed.

(** In the [delta] of a response the entries of the modified modules come
    first, in the order the transforms gave them; the ids of the deleted
    paths that are not among them follow, each once, in the order of
    deletion.  Every deleted path has [null] under its id, and every other
    id has what the transforms produced for it. *)
Theorem delta_of_modified_and_deleted this t t' r :
  let calculator := DeltaTransformer._deltaCalculator this in
  let id := DeltaTransformer._getModuleId this in
  _getDelta this t = (t', inr r) →
  ∃ d t1 resolver t2 transformed t3,
    DeltaCalculator.getDelta calculator t = (t1, inr d)
    ∧ Bundler.getResolver (DeltaTransformer._bundler this) t1
      = (t2, inr resolver)
    ∧ _transformModules this (DeltaResult.modified d) resolver
        (DeltaCalculator.getTransformerOptions calculator)
        (DeltaCalculator.getDependencyPairs calculator) t2
      = (t3, inr transformed)
    ∧ JSMap.keys (DeltaTransformResponse.delta r)
      = JSMap.keys transformed
        ++ first_occurrences
             (filter (λ k, k ∉ JSMap.keys transformed)
                     (id <$> DeltaResult.deleted d))
    ∧ (∀ p, p ∈ DeltaResult.deleted d →
            JSMap.get (id p) (DeltaTransformResponse.delta r) = Some None)
    ∧ (∀ k, k ∉ id <$> DeltaResult.deleted d →
            JSMap.get k (DeltaTransformResponse.delta r)
            = JSMap.get k transformed).
Proof.
  intros calculator id H.
  apply getDelta_inr in H
    as (d & t1 & resolver & t2 & transformed & t3 & t4
        & Hd & Hr & Hms & _ & _ & -> & _ & _).
  exists d, t1, resolver, t2, transformed, t3. split_and!; try done.
  - rewrite tombstones_set_all, set_all_keys. do 3 f_equal.
    rewrite <- list_fmap_compose. done.
  - intros p Hp. by apply tombstones_get.
  - intros k Hk. rewrite tombstones_set_all, set_all_get.
    destruct (last _) as [[k' v]|] eqn:Hlast; [|done].
    apply last_Some_elem_of, list_elem_of_filter in Hlast as [Hk' Hin].
    simpl in Hk'. subst k'.
    apply list_elem_of_fmap in Hin as (p & [= -> ->] & Hin).
    exfalso. apply Hk. by apply list_elem_of_fmap_2.
Qed.

Lemma delta_of_modified_and_deleted_witness :
  ∃ r,
    _getDelta (transformer0 [mod_a; mod_b] ["/e.js"; "/a.js"; "/e.js"] false []
                 ∅ mod_e) 0 = (4, inr r)
    ∧ JSMap.keys (DeltaTransformResponse.delta r) = [1%Z; 2%Z; 3%Z]
    ∧ JSMap.get 3%Z (DeltaTransformResponse.delta r) = Some None.
Proof.
  eexists.
  match goal with
  | |- ?A ∧ _ => assert (H : A); [vm_compute; reflexivity|]
  end.
  split; [exact H|].
  destruct (delta_of_modified_and_deleted _ _ _ _ H)
    as (d & t1 & resolver & t2 & transformed & t3
        & Hd & Hr & Hms & Hkeys & Hdel & _).
  vm_compute in Hd. injection Hd as <- <-.
  vm_compute in Hr. injection Hr as <- <-.
  split; [vm_compute; reflexivity|].
  apply (Hdel "/e.js"). left.
Defined.
(** When the delta calculator cannot give the delta, or the bundler the
    resolver, the computation rejects with that reason at once, and so does
    a [getDelta()] call that runs it. *)
Theorem getDelta_fails_with_collaborator this t t1 e :
  let calculator := DeltaTransformer._deltaCalculator this in
  DeltaCalculator.getDelta calculator t = (t1, inl e)
  ∨ (∃ t0 d, DeltaCalculator.getDelta calculator t = (t0, inr d)
             ∧ Bundler.getResolver (DeltaTransformer._bundler this) t0
               = (t1, inl e)) →
  _getDelta this t = (t1, inl e)
  ∧ getDelta this t = Some (Rejected e).
Proof.
  intros calculator Hfail.
  assert (_getDelta this t = (t1, inl e)) as Hdelta.
  { unfold _getDelta. rewrite mbind_await.
    destruct Hfail as [Hd|(t0 & d & Hd & Hr)].
    - by apply await_reject.
    - rewrite (await_step _ _ _ _ _ Hd), mbind_await. by apply await_reject. }
  split; [done|]. by rewrite getDelta_outcome, Hdelta.
Qed.

Lemma getDelta_fails_with_collaborator_witness :
  getDelta (constructor (bundler0 mod_e) calculator_failing options0
              (bundleOptions0 [])) 0
  = Some (Rejected "GraphError").
Proof.
  refine (proj2 (getDelta_fails_with_collaborator
                   (constructor (bundler0 mod_e) calculator_failing options0
                      (bundleOptions0 []))
                   0 1 "GraphError" _)).
  left. reflexivity.
Defined.

(** On a reset, a preamble or a postamble that cannot be assembled makes
    the whole computation reject, although every modified module was
    transformed: the transformed modules are not returned. *)
Theorem getDelta_fails_with_preamble_or_postamble this t t1 d t2 resolver t3
    transformed t' e :
  let calculator := DeltaTransformer._deltaCalculator this in
  let opts := DeltaCalculator.getTransformerOptions calculator in
  let pairs := DeltaCalculator.getDependencyPairs calculator in
  DeltaCalculator.getDelta calculator t = (t1, inr d) →
  DeltaResult.reset d = true →
  Bundler.getResolver (DeltaTransformer._bundler this) t1 = (t2, inr resolver) →
  _transformModules this (DeltaResult.modified d) resolver opts pairs t2
  = (t3, inr transformed) →
  _getPrepend this opts pairs t3 = (t', inl e)
  ∨ (∃ t4 pre,
       _getPrepend this opts pairs t3 = (t4, inr pre)
       ∧ _getAppend this pairs (DeltaCalculator.getModulesByName calculator) t4
         = (t', inl e)) →
  _getDelta this t = (t', inl e)
  ∧ getDelta this t = Some (Rejected e).
Proof.
  intros calculator opts pairs Hd Hreset Hr Hms Hfail.
  assert (_getDelta this t = (t', inl e)) as Hdelta.
  { unfold _getDelta. rewrite mbind_await, (await_step _ _ _ _ _ Hd).
    rewrite mbind_await, (await_step _ _ _ _ _ Hr).
    rewrite mbind_await, (await_step _ _ _ _ _ Hms).
    rewrite Hreset, mbind_await.
    destruct Hfail as [Hpre|(t4 & pre & Hpre & Hpost)].
    - by apply await_reject.
    - rewrite (await_step _ _ _ _ _ Hpre), mbind_await. by apply await_reject. }
  split; [done|]. by rewrite getDelta_outcome, Hdelta.
Qed.

Lemma getDelta_fails_with_preamble_or_postamble_witness :
  getDelta (constructor bundler_lost (calculator0 [mod_a] [] true ∅) options0
              (bundleOptions0 [])) 0
  = Some (Rejected "NotFound").
Proof.
  set (this := constructor bundler_lost (calculator0 [mod_a] [] true ∅)
                 options0 (bundleOptions0 [])).
  assert (∃ t3 transformed,
            _transformModules this [mod_a] resolver0 opts0 ∅ 1
            = (t3, inr transformed)) as (t3 & transformed & Hms).
  { eexists _, _. vm_compute. reflexivity. }
  assert (∃ t4 pre t',
            _getPrepend this opts0 ∅ t3 = (t4, inr pre)
            ∧ _getAppend this ∅ ∅ t4 = (t', inl "NotFound"))
    as (t4 & pre & t' & Hpre & Hpost).
  { vm_compute in Hms. injection Hms as <- _.
    eexists _, _, _. split; vm_compute; reflexivity. }
  refine (proj2 (getDelta_fails_with_preamble_or_postamble this 0 1
                   {| DeltaResult.modified := [mod_a];
                      DeltaResult.deleted := [];
                      DeltaResult.reset := true |}
                   1 resolver0 t3 transformed t' "NotFound"
                   eq_refl eq_refl eq_refl Hms _)).
  right. by exists t4, pre.
Defined.

(** When nothing was modified or deleted and there is no reset, the
    response has an empty preamble, postamble and delta; the inverse
    dependencies are translated all the same. *)
Theorem nothing_changed this t t1 t2 resolver :
  let calculator := DeltaTransformer._deltaCalculator this in
  DeltaCalculator.getDelta calculator t
  = (t1, inr {| DeltaResult.modified := []; DeltaResult.deleted := [];
                DeltaResult.reset := false |}) →
  Bundler.getResolver (DeltaTransformer._bundler this) t1 = (t2, inr resolver) →
  _getDelta this t
  = (t2, inr {| DeltaTransformResponse.pre := JSMap.empty;
                DeltaTransformResponse.post := JSMap.empty;
                DeltaTransformResponse.delta := JSMap.empty;
                DeltaTransformResponse.inverseDependencies :=
                  _getInverseDependencies this
                    (DeltaCalculator.getInverseDependencies calculator);
                DeltaTransformResponse.reset := false |}).
Proof.
  intros calculator Hd Hr. unfold _getDelta.
  rewrite mbind_await, (await_step _ _ _ _ _ Hd).
  rewrite mbind_await, (await_step _ _ _ _ _ Hr).
  assert (_transformModules this [] resolver
            (DeltaCalculator.getTransformerOptions calculator)
            (DeltaCalculator.getDependencyPairs calculator) t2
          = (t2, inr JSMap.empty)) as Hms.
  { unfold _transformModules, Promise_all. rewrite mbind_await.
    unfold await. csimpl. by rewrite Nat.max_0_r. }
  simpl. rewrite mbind_await, (await_step _ _ _ _ _ Hms). reflexivity.
Qed.

Lemma nothing_changed_witness :
  ∃ inverse,
    _getDelta (transformer0 [] [] false [] ∅ mod_e) 0
    = (1, inr {| DeltaTransformResponse.pre := [];
                 DeltaTransformResponse.post := [];
                 DeltaTransformResponse.delta := [];
                 DeltaTransformResponse.inverseDependencies := inverse;
                 DeltaTransformResponse.reset := false |})
    ∧ inverse !! "1" = Some [2%Z].
Proof.
  eexists. split.
  - exact (nothing_changed (transformer0 [] [] false [] ∅ mod_e) 0 1 1
             resolver0 eq_refl eq_refl).
  - vm_compute. reflexivity.
Defined.

(** ** [_getInverseDependencies] and [_getAppend] *)

(** The keys of the translated inverse dependencies are the ids, as
    strings, of the paths that are keys of the given map, no other. *)
Theorem getInverseDependencies_keys this inverseDependencies key :
  is_Some (_getInverseDependencies this inverseDependencies !! key)
  ↔ ∃ path, path ∈ inverseDependencies.*1
            ∧ key = String_ (DeltaTransformer._getModuleId this path).
Proof.
  unfold _getInverseDependencies. rewrite getInverseDependencies_lookup_from.
  rewrite lookup_empty. split.
  - destruct (last _) as [[path deps]|] eqn:Hlast; [|by intros [? [=]]].
    intros _. apply last_Some_elem_of, list_elem_of_filter in Hlast as [Hk Hin].
    exists path. split; [|done]. by apply (list_elem_of_fmap_2 fst) in Hin.
  - intros (path & Hin & ->).
    apply list_elem_of_fmap in Hin as ([path' deps] & -> & Hin).
    destruct (last _) as [kd|] eqn:Hlast; [done|]. apply last_None in Hlast.
    exfalso. apply (not_elem_of_nil (path', deps)). rewrite <- Hlast.
    by apply list_elem_of_filter.
Qed.

(** The postamble does not depend on the dependency pairs, and it is
    rejected when the resolver or the module of the entry file cannot be
    had. *)
Theorem getAppend_needs_entry_point this pairs byName t :
  let bundler := DeltaTransformer._bundler this in
  (∀ pairs', _getAppend this pairs' byName t = _getAppend this pairs byName t)
  ∧ (∀ t1 e, Bundler.getResolver bundler t = (t1, inl e) →
             _getAppend this pairs byName t = (t1, inl e))
  ∧ (∀ t1 resolver t2 e,
       Bundler.getResolver bundler t = (t1, inr resolver) →
       Bundler.getModuleForPath bundler
         (Resolver.getAbsolutePath resolver
            (BundleOptions.entryFile (DeltaTransformer._bundleOptions this)))
         t1 = (t2, inl e) →
       _getAppend this pairs byName t = (t2, inl e)).
Proof.
  intros bundler. split_and!; [done|..].
  - intros t1 e Hr. unfold _getAppend. rewrite mbind_await.
    by apply await_reject.
  - intros t1 resolver t2 e Hr He. unfold _getAppend.
    rewrite mbind_await, (await_step _ _ _ _ _ Hr), mbind_await.
    by apply await_reject.
Qed.

Lemma getAppend_needs_entry_point_witness :
  _getAppend (constructor bundler_lost (calculator0 [] [] true ∅) options0
                (bundleOptions0 [])) ∅ ∅ 0
  = (1, inl "NotFound").
Proof.
  exact (proj2 (proj2 (getAppend_needs_entry_point
                         (constructor bundler_lost (calculator0 [] [] true ∅)
                            options0 (bundleOptions0 [])) ∅ ∅ 0))
           0 resolver0 1 "NotFound" eq_refl eq_refl).
Defined.

(** ** [create] *)

(** * Change notification and [end()] *)

Lemma removeListener_snoc l ls :
  EventEmitter.removeListener l (ls ++ [l]) = ls.
Proof.
  induction ls as [|x ls IH]; simpl.
  - by case_decide.
  - case_decide as H; [by rewrite IH|].
    exfalso. apply H, elem_of_app. right. left.
Qed.

Lemma removeListener_absent l ls :
  l ∉ ls → EventEmitter.removeListener l ls = ls.
Proof.
  induction ls as [|x ls IH]; [done|]. intros [Hx Hls]%not_elem_of_cons.
  simpl. case_decide; [done|]. case_decide; [by subst|done].
Qed.

Lemma removeListener_others l ls :
  filter (λ x, x ≠ l) (EventEmitter.removeListener l ls)
  = filter (λ x, x ≠ l) ls.
Proof.
  induction ls as [|x ls IH]; [done|]. simpl.
  destruct (decide (l ∈ ls)).
  - rewrite !filter_cons, IH. done.
  - destruct (decide (x = l)) as [->|Hne]; [|done].
    rewrite filter_cons. by rewrite decide_False by (intros H; by apply H).
Qed.

Lemma of_others_emitted i w ls :
  of_others i (mjoin (invoke w <$> ls))
  = mjoin (invoke w <$> filter (λ x, x ≠ OnFileChange i) ls).
Proof.
  unfold of_others. induction ls as [|x ls IH]; [done|].
  csimpl. rewrite filter_app, IH, filter_cons.
  destruct x as [j|f]; simpl.
  - destruct (decide (j = i)) as [->|Hne].
    + rewrite decide_False by (intros H; by apply H).
      rewrite (filter_none _ (_onFileChange i w)); [done|].
      intros n (s & -> & _)%list_elem_of_fmap. simpl.
      rewrite bool_decide_eq_true. intros H. by apply H.
    + rewrite decide_True by congruence.
      csimpl. f_equal. unfold _onFileChange. apply filter_all.
      intros n (s & -> & _)%list_elem_of_fmap. simpl.
      by apply bool_decide_eq_true.
  - done.
Qed.

(** Once constructed, a transformer forwards the changes of the delta
    calculator: when the calculator emits ['change'], the listeners it had
    before are called first, then each subscriber of the transformer, once,
    in the order they subscribed. *)
Theorem change_is_forwarded i w :
  calculator_emits_change (constructor_subscribes i w)
  = calculator_emits_change w ++ (Notified i <$> transformer_change w i).
Proof.
  unfold calculator_emits_change, constructor_subscribes, EventEmitter.on.
  simpl. rewrite fmap_app, join_app. csimpl. by rewrite app_nil_r.
Qed.

(** [end()] undoes the subscription of the constructor: the listeners of
    the calculator are those from before the construction, so its changes
    are no longer forwarded; the calculator's [end()] has been called once
    more, and what it returned is returned. *)
Theorem end_detaches {R} (calculator_end : R) i w :
  let ended := end_ calculator_end i (constructor_subscribes i w) in
  calculator_change ended.1 = calculator_change w
  ∧ calculator_emits_change ended.1 = calculator_emits_change w
  ∧ calculator_ended ended.1 = S (calculator_ended w)
  ∧ ended.2 = calculator_end.
Proof.
  unfold end_, constructor_subscribes, calculator_emits_change,
    EventEmitter.on. simpl.
  by rewrite removeListener_snoc.
Qed.

(** [end()] of a transformer leaves the other listeners of the calculator
    in place and in order, so what the others are notified of does not
    change; and on a transformer that is not subscribed (a second [end()])
    it removes nothing. *)
Theorem end_keeps_the_others {R} (calculator_end : R) i w :
  let ended := (end_ calculator_end i w).1 in
  filter (λ l, l ≠ OnFileChange i) (calculator_change ended)
  = filter (λ l, l ≠ OnFileChange i) (calculator_change w)
  ∧ of_others i (calculator_emits_change ended)
    = of_others i (calculator_emits_change w)
  ∧ (OnFileChange i ∉ calculator_change w →
     calculator_change ended = calculator_change w).
Proof.
  unfold end_, calculator_emits_change. simpl. split_and!.
  - apply removeListener_others.
  - rewrite !of_others_emitted. simpl. by rewrite removeListener_others.
  - apply removeListener_absent.
Qed.

(** Two transformers on one calculator; the first one ends. *)
Lemma end_keeps_the_others_witness :
  let w := constructor_subscribes 1 (constructor_subscribes 0 emitters0) in
  calculator_emits_change w
  = [ForeignCalled 7; Notified 0 10; Notified 0 11; Notified 1 20]
  ∧ calculator_emits_change (end_ () 0 w).1 = [ForeignCalled 7; Notified 1 20]
  ∧ calculator_change (end_ () 0 (end_ () 0 w).1).1
    = calculator_change (end_ () 0 w).1.
Proof.
  intros w. split; [reflexivity|]. split; [reflexivity|].
  apply (proj2 (proj2 (end_keeps_the_others () 0 (end_ () 0 w).1))).
  vm_compute. intros H. by repeat (apply elem_of_cons in H as [[=]|H]);
    apply elem_of_nil in H.
Defined.
(** * Further properties of the orchestrator *)

(** A call that found [_currentBuildPromise] holding the promise [p] calls
    [_getDelta()] only after [p] has been fulfilled: whenever a build
    promise of this call exists, [p] is fulfilled. *)
Theorem waiter_builds_after_fulfilment evs evs' p q s :
  let st := run evs initial in
  let c := calls st in
  let st' := run evs' (call st) in
  _currentBuildPromise st = Some p →
  builds st' !! q = Some (mkBuild c s) →
  ∃ r, settled_with st' p (Fulfilled r).
Proof.
  intros st c st' Htok Hq.
  destruct (waits_or_threw_run c p (call st) evs') as [Hr|[NB _]].
  - apply consistent_call, consistent_reachable.
  - apply call_waits; [apply consistent_reachable|done].
  - done.
  - by destruct (NB q c s Hq).
Qed.

(** The second call starts its computation after the first one's fulfilled. *)
Lemma waiter_builds_after_fulfilment_witness :
  let r :=
    {| DeltaTransformResponse.pre := []; DeltaTransformResponse.post := [];
       DeltaTransformResponse.delta := [];
       DeltaTransformResponse.inverseDependencies := ∅;
       DeltaTransformResponse.reset := false |} in
  let st' := run [Call; Call; Settle 0 (Fulfilled r); RunJob; RunJob] initial in
  builds st' !! 1 = Some (mkBuild 1 (Pending [1]))
  ∧ ∃ r', settled_with st' 0 (Fulfilled r').
Proof.
  intros r st'. split; [reflexivity|].
  exact (waiter_builds_after_fulfilment
           [Call] [Settle 0 (Fulfilled r); RunJob; RunJob] 0 1 (Pending [1])
           eq_refl eq_refl).
Defined.

Lemma calls_step st ev :
  calls (step st ev) = (if ev is Call then S (calls st) else calls st).
Proof.
  destruct ev as [|p o'|]; simpl.
  - unfold call. destruct (_currentBuildPromise st).
    + unfold await_build. simpl.
      by destruct (builds _ !! _) as [[c1 [rs|o1]]|].
    + by rewrite start_build_eq.
  - unfold settle. by destruct (builds st !! p) as [[c1 [rs|o1]]|].
  - unfold run_job. destruct (jobs st) as [|[c1 o1] js]; [done|].
    unfold resume. simpl.
    destruct (activations st !! c1) as [[p1|p1|o2]|];
      [destruct o1|..]; by rewrite ?start_build_eq.
Qed.


Lemma activations_kept st ev c :
  is_Some (activations st !! c) → is_Some (activations (step st ev) !! c).
Proof.
  intros Hc. destruct ev as [|p o'|]; simpl.
  - unfold call. destruct (_currentBuildPromise st).
    + unfold await_build. simpl.
      destruct (builds _ !! _) as [[c1 [rs|o1]]|]; simpl;
        rewrite ?lookup_insert_is_Some'; auto.
    + rewrite start_build_eq. simpl. rewrite lookup_insert_is_Some'. auto.
  - by rewrite activations_settle.
  - unfold run_job. destruct (jobs st) as [|[c1 o1] js]; [done|].
    unfold resume. simpl.
    destruct (activations st !! c1) as [[p1|p1|o2]|];
      [destruct o1|..]; rewrite ?start_build_eq; simpl;
      rewrite ?lookup_insert_is_Some'; auto.
Qed.

Lemma activations_defined evs c :
  c < calls (run evs initial) →
  is_Some (activations (run evs initial) !! c).
Proof.
  assert (∀ st, consistent st →
                (∀ c, c < calls st → is_Some (activations st !! c)) →
                ∀ c, c < calls (run evs st) →
                     is_Some (activations (run evs st) !! c)) as Hrun.
  { induction evs as [|ev evs IH]; intros st Hst Hdef; [done|].
    apply IH; [by apply consistent_step|]. intros c' Hc'.
    rewrite calls_step in Hc'.
    destruct (decide (c' < calls st)) as [Hold|Hnew].
    { by apply activations_kept, Hdef. }
    destruct ev; try lia. assert (c' = calls st) as -> by lia.
    simpl. unfold call.
    destruct (_currentBuildPromise st) as [p|] eqn:Htok.
    - destruct (token_owned _ Hst p Htok) as (c0 & s & Hb & _).
      unfold await_build. simpl. rewrite Hb.
      destruct s; simpl; rewrite lookup_insert_is_Some'; auto.
    - rewrite start_build_eq. simpl. rewrite lookup_insert_is_Some'. auto. }
  apply Hrun; [apply consistent_initial|]. simpl. lia.
Qed.

(** No call is left hanging: in a state the orchestrator can reach, when
    every build promise is settled and no job is left, every call of
    [getDelta()] made so far has returned or thrown. *)
Theorem quiescent_all_completed evs :
  let st := run evs initial in
  jobs st = [] → all_settled st → all_completed st.
Proof.
  intros st Hjobs Hall c Hc.
  pose proof (consistent_reachable evs) as Hst. fold st in Hst.
  destruct (activations_defined evs c Hc) as [a Ha]. fold st in Ha.
  assert (∀ p, awaiting st c p → False) as Hno.
  { intros p Haw.
    destruct (suspended_registered _ Hst c p Haw) as (c' & s & Hb & Hreg).
    destruct (Hall _ _ _ Hb) as [o ->]. rewrite Hjobs in Hreg.
    by apply elem_of_nil in Hreg. }
  destruct a as [p|p|o]; [| |by exists o].
  - destruct (Hno p). by left.
  - destruct (Hno p). by right.
Qed.

(** Three overlapping calls, all served. *)
Lemma quiescent_all_completed_witness :
  let st :=
    run [Call; Call; Call; Settle 0 (Rejected boom); RunJob; RunJob; RunJob]
        initial in
  calls st = 3 ∧ all_completed st.
Proof.
  intros st. split; [reflexivity|].
  apply (quiescent_all_completed
           [Call; Call; Call; Settle 0 (Rejected boom); RunJob; RunJob; RunJob]).
  - reflexivity.
  - intros p c s Hb. vm_compute in Hb.
    destruct p as [|p]; [|by destruct p]. injection Hb as <- <-. by eexists.
Defined.

Lemma pending_step st ev p c rs :
  builds (step st ev) !! p = Some (mkBuild c (Pending rs)) →
  builds st !! p = Some (mkBuild c (Pending rs))
  ∨ (∃ rs0, builds st !! p = Some (mkBuild c (Pending rs0))
            ∧ rs = rs0 ++ [calls st])
  ∨ rs = [c].
Proof.
  destruct st as [tok bs n acts js]. destruct ev as [|q o|]; simpl.
  - unfold call. simpl. destruct tok as [p0|].
    + unfold await_build. simpl.
      destruct (bs !! p0) as [[c0 [rs0|o0]]|] eqn:Hb; simpl; [|by left..].
      intros [(-> & [= <- <-] & _)|[_ H]]%list_lookup_insert_Some; eauto.
    + rewrite start_build_eq. simpl.
      intros [[_ H]|[_ [= <- <-]]]%lookup_snoc_Some; eauto.
  - unfold settle. simpl.
    destruct (bs !! q) as [[c0 [rs0|o0]]|] eqn:Hb; simpl; [|by left..].
    intros [(-> & [=] & _)|[_ H]]%list_lookup_insert_Some; eauto.
  - unfold run_job. simpl. destruct js as [|[c1 o1] js]; [by left|].
    unfold resume. simpl.
    destruct (acts !! c1) as [[p1|p1|o2]|]; [destruct o1|..];
      rewrite ?start_build_eq; simpl; try by left.
    intros [[_ H]|[_ [= <- <-]]]%lookup_snoc_Some; eauto.
Qed.

(** Calls that wait for the same build promise are resumed in the order in
    which they were made: in a state the orchestrator can reach the
    reactions of a pending build promise are in the order of the calls, and
    when the promise settles their jobs are queued in that order, after the
    jobs already there. *)
Theorem waiters_in_call_order evs :
  let st := run evs initial in
  reactions_in_call_order st
  ∧ ∀ p c rs o,
      builds st !! p = Some (mkBuild c (Pending rs)) →
      jobs (settle p o st) = jobs st ++ ((λ c', (c', o)) <$> rs).
Proof.
  intros st. split; last first.
  { intros p c rs o Hb. unfold settle. by rewrite Hb. }
  assert (∀ st, consistent st → reactions_in_call_order st →
                reactions_in_call_order (run evs st)) as Hrun.
  { induction evs as [|ev evs IH]; intros st0 Hst Hsorted; [done|].
    apply IH; [by apply consistent_step|].
    intros p c rs Hb i j c1 c2 Hi Hj Hij.
    apply pending_step in Hb as [Hb|[(rs0 & Hb & ->)| ->]].
    - by apply (Hsorted p c rs Hb i j).
    - apply lookup_snoc_Some in Hj as [[Hlt Hj]|[-> <-]].
      + rewrite lookup_app_l in Hi by lia.
        by apply (Hsorted p c rs0 Hb i j).
      + rewrite lookup_app_l in Hi by lia.
        destruct st0 as [tok bs n acts js]. simpl in *.
        eapply (reactions_bounded _ _ _ _ _ Hst); [done|].
        by eapply list_elem_of_lookup_2.
    - destruct j as [|j]; [lia|]. by destruct j. }
  apply Hrun; [apply consistent_initial|]. by intros p c rs H.
Qed.

Lemma waiters_in_call_order_witness :
  let st := run [Call; Call; Call] initial in
  builds st !! 0 = Some (mkBuild 0 (Pending [0; 1; 2]))
  ∧ jobs (settle 0 (Rejected boom) st)
    = [(0, Rejected boom); (1, Rejected boom); (2, Rejected boom)].
Proof.
  intros st. split; [reflexivity|].
  exact (proj2 (waiters_in_call_order [Call; Call; Call]) 0 0 [0; 1; 2]
           (Rejected boom) eq_refl).
Defined.
